(** * Blockwise primitive and fusion engine of cubed

    A shallow embedding of [cubed/primitive/blockwise.py] and
    [cubed/runtime/executors/python.py].  Python integers are [Z]; chunk
    keys are [list Z]; a chunked store is a function from an array name and
    a chunk key to the block held there.  Python exceptions are [None]
    (or an explicit error type where the claim is about the error). *)

From Stdlib Require Import List ZArith String Bool Lia.
Import ListNotations.
Open Scope Z_scope.
Set Warnings "-register-all".

(* ------------------------------------------------------------------ *)
(** ** Data model *)

(** A chunk key: the integer coordinates of a chunk in its grid. *)
Definition key := list Z.

(** Python sequences of integers: [itertools.product] yields tuples and
    [map(list, ...)] turns them into lists. *)
Inductive pyseq :=
| PyTuple (xs : list Z)
| PyList (xs : list Z).

Definition pyseq_items (s : pyseq) : list Z :=
  match s with PyTuple xs => xs | PyList xs => xs end.

(** [(name, coord...)]: a chunk address, as returned by block functions. *)
Definition chunk_ind := (string * key)%type.

(** A block-function entry: a single [(name, coord...)] tuple, or a (possibly
    nested) list of them for contraction axes. *)
Inductive Arg :=
| Leaf (ci : chunk_ind)
| Nest (xs : list Arg).

(** Blocks handed to kernels and returned by them: a dense block, a list of
    them, a [dict] mapping field names to blocks (a kernel result for a
    structured output), or a block of a structured array, by field. *)
Inductive Val :=
| VBlock (data : list Z)
| VList (xs : list Val)
| VDict (items : list (string * Val))
| VStruct (fields : list (string * Val)).

(** A user kernel, plain or generator-style ([inspect.isgeneratorfunction]).
    [None] is an exception raised by the kernel. *)
Inductive kernel :=
| KSingle (f : list Val -> option Val)
| KGen (f : list Val -> option (list Val)).

(** A zarr array reference: its name in the store, its shape, the element
    size of its dtype in bytes, and its (regular) chunk shape. *)
Record ArrayRef := mkArrayRef {
  arr_name : string;
  arr_shape : list Z;
  arr_itemsize : Z;
  arr_chunks : list Z
}.

Record BlockwiseSpec := mkBlockwiseSpec {
  block_function : chunk_ind -> option (list Arg);
  function : kernel;
  function_nargs : nat;
  num_input_blocks : list Z;
  reads_map : list (string * string);   (* input name -> array name *)
  writes_list : list string             (* array names of the outputs *)
}.

(** The stage function of a pipeline; [is_fuse_candidate] compares it with
    [apply_blockwise]. *)
Inductive stage_function := ApplyBlockwise | OtherStageFunction.

Definition stage_function_eqb (a b : stage_function) : bool :=
  match a, b with
  | ApplyBlockwise, ApplyBlockwise => true
  | OtherStageFunction, OtherStageFunction => true
  | _, _ => false
  end.

(** A pipeline name made by [gensym]: prefix and counter value. *)
Definition sym := (string * nat)%type.

Record CubedPipeline := mkCubedPipeline {
  pipe_function : stage_function;
  pipe_name : sym;
  mappable : list pyseq;
  config : BlockwiseSpec
}.

(** [target_array] is one zarr array, or a list of them for several outputs. *)
Inductive target := TSingle (a : ArrayRef) | TMany (l : list ArrayRef).

Record PrimitiveOperation := mkPrimitiveOperation {
  pipeline : CubedPipeline;
  source_array_names : list string;
  target_array : target;
  projected_mem : Z;
  allowed_mem : Z;
  reserved_mem : Z;
  num_tasks : Z;
  fusable : bool
}.

(** [gensym]: the global [sym_counter] is threaded explicitly. *)
Definition gensym (name : string) (sym_counter : nat) : sym * nat :=
  ((name, S sym_counter), S sym_counter).

(* ------------------------------------------------------------------ *)
(** ** Helpers from [cubed.utils] (not in this source tree) *)

Definition prod_Z (l : list Z) : Z := fold_left Z.mul l 1.
Definition sum_Z (l : list Z) : Z := fold_left Z.add l 0.

(** Modelled from the spec: [chunk_memory] (cubed.utils), section 4.5,
    [chunk_bytes(dtype, chunks) = element_size(dtype) * product(chunk_shape)]. *)
Definition chunk_memory (itemsize : Z) (chunks : list Z) : Z :=
  itemsize * prod_Z chunks.

(** Modelled from the spec: [to_chunksize] (cubed.utils), the chunk shape of a
    regular normalized ChunkGrid: the first chunk length on each axis (at
    least 1, as zarr chunk sizes are positive). *)
Definition to_chunksize (chunks_normal : list (list Z)) : list Z :=
  map (fun c => Z.max (hd 0 c) 1) chunks_normal.

(** [itertools.product] over [range(n_i)] for each axis, in its order (last
    axis fastest). *)
Fixpoint product_ranges (ns : list nat) : list (list Z) :=
  match ns with
  | [] => [[]]
  | n :: rest =>
      flat_map (fun i => map (fun t => Z.of_nat i :: t) (product_ranges rest))
               (seq 0 n)
  end.

(** Decimal digits of a natural number, for the default input names. *)
Fixpoint digits_aux (fuel n : nat) (acc : string) : string :=
  match fuel with
  | O => acc
  | S fuel' =>
      let d := String (Ascii.ascii_of_nat (48 + Nat.modulo n 10)) EmptyString in
      if Nat.ltb n 10 then append d acc
      else digits_aux fuel' (Nat.div n 10) (append d acc)
  end.

Definition nat_to_string (n : nat) : string := digits_aux (S n) n EmptyString.

(** A Python dict as an association list: a later binding of a key overrides
    an earlier one (dict comprehension over [zip], [dict.update]). *)
Fixpoint dict_lookup (d : list (string * string)) (k : string) : option string :=
  match d with
  | [] => None
  | (k', v) :: rest =>
      match dict_lookup rest k with
      | Some v' => Some v'
      | None => if String.eqb k k' then Some v else None
      end
  end.

(* ------------------------------------------------------------------ *)
(** ** [general_blockwise] *)

(** An output of [general_blockwise]: [target_stores[i]] (the array name),
    the element size of [dtypes[i]], and the normalized chunk grid of
    [chunkss[i]] (per axis, the list of chunk lengths). *)
Record OutSpec := mkOutSpec {
  out_store : string;
  out_itemsize : Z;
  out_chunks_normal : list (list Z)
}.

(** Failures of [general_blockwise]. *)
Inductive gb_error :=
(** [raise ValueError(f"Projected blockwise memory ({projected_mem}) exceeds
    allowed_mem ({allowed_mem}), including reserved_mem ({reserved_mem})")] *)
| MemoryBudgetExceeded (projected allowed reserved : Z)
(** no target store: [chunks_normal] is never bound ([NameError]) *)
| NameErrorChunksNormal
(** raised by [_make_dims] in [make_blockwise_function] (section 4.1): inputs
    sharing an index label disagree on its number of blocks *)
| IndexMismatch.

Definition default_array_names (arrays : list ArrayRef) : list string :=
  map (fun i => append "in_" (nat_to_string i)) (seq 0 (List.length arrays)).

(** [chunk_memory(array.dtype, array.chunks)] of an input. *)
Definition input_chunk_bytes (a : ArrayRef) : Z :=
  chunk_memory (arr_itemsize a) (arr_chunks a).

(** [chunk_memory(dtypes[i], chunksize)] of an output. *)
Definition output_chunk_bytes (o : OutSpec) : Z :=
  chunk_memory (out_itemsize o) (to_chunksize (out_chunks_normal o)).

(** [output_chunk_memory]: the loop [max(output_chunk_memory,
    chunk_memory(dtypes[i], chunksize) * 2)] from 0. *)
Definition output_chunk_memory (outs : list OutSpec) : Z :=
  fold_left (fun acc o => Z.max acc (output_chunk_bytes o * 2)) outs 0.

(** The projected memory computed in [general_blockwise]. *)
Definition blockwise_projected_mem (reserved_mem extra_projected_mem : Z)
    (arrays : list ArrayRef) (outs : list OutSpec) : Z :=
  let projected_mem := reserved_mem + extra_projected_mem in
  let projected_mem :=
    fold_left (fun acc a => acc + input_chunk_bytes a * 2) arrays projected_mem in
  projected_mem + output_chunk_memory outs.

Definition out_target_ref (o : OutSpec) : ArrayRef :=
  mkArrayRef (out_store o) (map sum_Z (out_chunks_normal o)) (out_itemsize o)
    (to_chunksize (out_chunks_normal o)).

(** [chunks_normal] after the loop over the targets: the grid of the last
    output (the loop variable outlives the loop). *)
Definition last_chunks_normal (outs : list OutSpec) : option (list (list Z)) :=
  match rev outs with
  | [] => None
  | o :: _ => Some (out_chunks_normal o)
  end.

Definition general_blockwise (func : kernel) (block_function : chunk_ind -> option (list Arg))
    (arrays : list ArrayRef) (allowed_mem reserved_mem : Z) (outs : list OutSpec)
    (in_names : option (list string)) (extra_projected_mem : Z) (fusable : bool)
    (num_input_blocks : option (list Z)) (sym_counter : nat)
    : (PrimitiveOperation * nat) + gb_error :=
  let array_names :=
    match in_names with
    | None | Some [] => default_array_names arrays
    | Some ns => ns
    end in
  let num_input_blocks :=
    match num_input_blocks with
    | None | Some [] => repeat 1 (List.length arrays)
    | Some n => n
    end in
  let read_proxies := combine array_names (map arr_name arrays) in
  let write_proxies := map out_store outs in
  let target_array :=
    match map out_target_ref outs with
    | [ta] => TSingle ta
    | tas => TMany tas
    end in
  let spec := mkBlockwiseSpec block_function func (List.length arrays) num_input_blocks
                read_proxies write_proxies in
  let projected_mem := blockwise_projected_mem reserved_mem extra_projected_mem arrays outs in
  if projected_mem >? allowed_mem then
    inr (MemoryBudgetExceeded projected_mem allowed_mem reserved_mem)
  else
    match last_chunks_normal outs with
    | None => inr NameErrorChunksNormal
    | Some chunks_normal =>
        let output_blocks :=
          map (fun t => PyList (pyseq_items t))
              (map PyTuple (product_ranges (map (@List.length Z) chunks_normal))) in
        let num_tasks := prod_Z (map (fun c => Z.of_nat (List.length c)) chunks_normal) in
        let (name, sym_counter') := gensym "apply_blockwise" sym_counter in
        let pipeline := mkCubedPipeline ApplyBlockwise name output_blocks spec in
        inl (mkPrimitiveOperation pipeline array_names target_array projected_mem
               allowed_mem reserved_mem num_tasks fusable, sym_counter')
    end.

(* ------------------------------------------------------------------ *)
(** ** Task execution: [apply_blockwise] *)

(** The chunked stores: the block held by each array at each chunk key
    ([key_to_slices] addresses the same chunk on the read and write side). *)
Definition store := string -> key -> Val.

Definition store_set (s : store) (arr : string) (k : key) (v : Val) : store :=
  fun a k' =>
    if String.eqb a arr then (if list_eq_dec Z.eq_dec k k' then v else s a k')
    else s a k'.

(** [get_chunk]: [config.reads_map[name].open()[chunk_key]]; a missing name is a
    [KeyError]. *)
Definition get_chunk (reads : list (string * string)) (s : store) (ci : chunk_ind)
    : option Val :=
  match dict_lookup reads (fst ci) with
  | Some arr => Some (s arr (snd ci))
  | None => None
  end.

(** Modelled from the spec: [map_nested] (cubed.utils), section 4.3 step 2,
    descend the nested structure, read every leaf and keep the nesting. *)
Fixpoint map_nested_get_chunk (reads : list (string * string)) (s : store) (a : Arg)
    : option Val :=
  match a with
  | Leaf ci => get_chunk reads s ci
  | Nest xs =>
      let fix go (xs : list Arg) : option (list Val) :=
        match xs with
        | [] => Some []
        | x :: rest =>
            match map_nested_get_chunk reads s x, go rest with
            | Some v, Some vs => Some (v :: vs)
            | _, _ => None
            end
        end in
      option_map VList (go xs)
  end.

Fixpoint traverse_option {A B} (f : A -> option B) (l : list A) : option (list B) :=
  match l with
  | [] => Some []
  | x :: rest =>
      match f x, traverse_option f rest with
      | Some y, Some ys => Some (y :: ys)
      | _, _ => None
      end
  end.

(** [results = config.function( *args)], made a sequence for a plain kernel. *)
Definition run_kernel (k : kernel) (args : list Val) : option (list Val) :=
  match k with
  | KSingle f => option_map (fun r => [r]) (f args)
  | KGen f => f args
  end.

(** [isinstance(result, dict)] *)
Definition is_dict (v : Val) : bool :=
  match v with VDict _ => true | _ => false end.

(** [set_basic_selection(out_chunk_key, v, fields=k)] on one block: field [k]
    of a block of a structured array is replaced by [v]; an array without
    fields, or without a field of that name, raises. *)
Definition set_field (blk : Val) (f : string) (v : Val) : option Val :=
  match blk with
  | VStruct fs =>
      if existsb (String.eqb f) (map fst fs)
      then Some (VStruct (map (fun '(f', v') => if String.eqb f f' then (f', v) else (f', v')) fs))
      else None
  | _ => None
  end.

(** [for k, v in result.items(): ...set_basic_selection(..., v, fields=k)],
    in the dict's order. *)
Fixpoint set_fields (blk : Val) (items : list (string * Val)) : option Val :=
  match items with
  | [] => Some blk
  | (f, v) :: rest =>
      match set_field blk f v with
      | Some blk' => set_fields blk' rest
      | None => None
      end
  end.

(** The block at [out_chunk_key] after writing [result] over [old]: a dict
    result writes its fields one by one, any other result replaces the
    block ([open()[out_chunk_key] = result]). *)
Definition write_block (old result : Val) : option Val :=
  match result with
  | VDict items => set_fields old items
  | _ => Some result
  end.

Definition write_result (s : store) (arr : string) (k : key) (result : Val) : option store :=
  option_map (store_set s arr k) (write_block (s arr k) result).

(** The write loop [for i, result in enumerate(results)]; [writes_list[i]]
    out of range is an [IndexError]. *)
Fixpoint write_results (writes : list string) (k : key) (i : nat) (results : list Val)
    (s : store) : option store :=
  match results with
  | [] => Some s
  | r :: rest =>
      match nth_error writes i with
      | Some arr =>
          match write_result s arr k r with
          | Some s' => write_results writes k (S i) rest s'
          | None => None
          end
      | None => None
      end
  end.

Definition apply_blockwise (out_key : pyseq) (config : BlockwiseSpec) (s : store)
    : option store :=
  let out_key_tuple := pyseq_items out_key in
  match block_function config ("out"%string, out_key_tuple) with
  | None => None
  | Some name_chunk_inds =>
      match traverse_option (map_nested_get_chunk (reads_map config) s) name_chunk_inds with
      | None => None
      | Some args =>
          match run_kernel (function config) args with
          | None => None
          | Some results => write_results (writes_list config) out_key_tuple 0 results s
          end
      end
  end.

(** Running a pipeline: [apply_blockwise] on each key of [mappable], in order. *)
Fixpoint run_tasks (config : BlockwiseSpec) (ms : list pyseq) (s : store) : option store :=
  match ms with
  | [] => Some s
  | m :: rest =>
      match apply_blockwise m config s with
      | Some s' => run_tasks config rest s'
      | None => None
      end
  end.

Definition execute_op (op : PrimitiveOperation) (s : store) : option store :=
  run_tasks (config (pipeline op)) (mappable (pipeline op)) s.

(* ------------------------------------------------------------------ *)
(** ** Fusion decisions *)

Definition is_fuse_candidate (primitive_op : PrimitiveOperation) : bool :=
  stage_function_eqb (pipe_function (pipeline primitive_op)) ApplyBlockwise.

Definition can_fuse_primitive_ops (primitive_op1 primitive_op2 : PrimitiveOperation) : bool :=
  if is_fuse_candidate primitive_op1 && is_fuse_candidate primitive_op2 then
    num_tasks primitive_op1 =? num_tasks primitive_op2
  else false.

(** Modelled from the spec: [MemoryModeller] (cubed/primitive/types.py),
    the running (allocated, peak) pair bumped by [allocate] and [free]. *)
Record MemoryModeller := mkMemoryModeller { current_mem : Z; peak_mem : Z }.

Definition modeller0 : MemoryModeller := mkMemoryModeller 0 0.

Definition allocate (m : MemoryModeller) (num_bytes : Z) : MemoryModeller :=
  let c := current_mem m + num_bytes in mkMemoryModeller c (Z.max (peak_mem m) c).

Definition free (m : MemoryModeller) (num_bytes : Z) : MemoryModeller :=
  let c := current_mem m - num_bytes in mkMemoryModeller c (Z.max (peak_mem m) c).

(** [peak_projected_mem]; [p.target_array.dtype] is an [AttributeError] when
    the target is a list of arrays. *)
Fixpoint peak_projected_mem_from (m : MemoryModeller) (primitive_ops : list PrimitiveOperation)
    : option Z :=
  match primitive_ops with
  | [] => Some (peak_mem m)
  | p :: rest =>
      let m := allocate m (projected_mem p) in
      match target_array p with
      | TSingle ta =>
          let chunkmem := chunk_memory (arr_itemsize ta) (arr_chunks ta) in
          peak_projected_mem_from (free m (projected_mem p - chunkmem)) rest
      | TMany _ => None
      end
  end.

Definition peak_projected_mem (primitive_ops : list PrimitiveOperation) : option Z :=
  peak_projected_mem_from modeller0 primitive_ops.

(** [total_num_input_blocks]: the double loop over
    [zip(num_input_blocks, predecessor_primitive_ops)] and each predecessor's
    [num_input_blocks]. *)
Definition total_num_input_blocks (nib : list Z)
    (predecessor_primitive_ops : list PrimitiveOperation) : Z :=
  fold_left (fun total '(ni, p) =>
      fold_left (fun total nj => total + ni * nj)
        (num_input_blocks (config (pipeline p))) total)
    (combine nib predecessor_primitive_ops) 0.

(** [can_fuse_multiple_primitive_ops]; [None] is an exception (from
    [peak_projected_mem]). *)
Definition can_fuse_multiple_primitive_ops (primitive_op : PrimitiveOperation)
    (predecessor_primitive_ops : list PrimitiveOperation)
    (max_total_num_input_blocks : option Z) : option bool :=
  if is_fuse_candidate primitive_op && forallb is_fuse_candidate predecessor_primitive_ops then
    match peak_projected_mem predecessor_primitive_ops with
    | None => None
    | Some peak_projected =>
        if peak_projected >? allowed_mem primitive_op then Some false
        else
          let nib := num_input_blocks (config (pipeline primitive_op)) in
          if negb (forallb (fun n => hd 0 nib =? n) nib) then Some false
          else
            match max_total_num_input_blocks with
            | None =>
                Some (forallb (fun p => num_tasks primitive_op =? num_tasks p)
                        predecessor_primitive_ops)
            | Some m => Some (total_num_input_blocks nib predecessor_primitive_ops <=? m)
            end
    end
  else Some false.

(* ------------------------------------------------------------------ *)
(** ** Pairwise fusion: [fuse] *)

(** [tuple(n * pipeline2.config.num_input_blocks[0] for n in ...)]; the index
    is only evaluated when the first tuple is not empty ([IndexError]). *)
Definition fuse_num_input_blocks (nib1 nib2 : list Z) : option (list Z) :=
  match nib1 with
  | [] => Some []
  | _ =>
      match nib2 with
      | [] => None
      | n0 :: _ => Some (map (fun n => n * n0) nib1)
      end
  end.

(** [pipeline1.config.block_function( *pipeline2.config.block_function(out_key))]:
    a block function takes one key, so anything but a one-element result of
    the second block function is a [TypeError]. *)
Definition fused_blockwise_func (bf1 bf2 : chunk_ind -> option (list Arg))
    (out_key : chunk_ind) : option (list Arg) :=
  match bf2 out_key with
  | Some [Leaf a] => bf1 a
  | _ => None
  end.

(** [pipeline2.config.function(pipeline1.config.function( *args))], a plain
    function.  A generator-style kernel on either side hands a generator
    object on where a block is expected; that is not modelled ([None]). *)
Definition fused_func (k1 k2 : kernel) : kernel :=
  KSingle (fun args =>
    match k1, k2 with
    | KSingle f1, KSingle f2 =>
        match f1 args with
        | Some v => f2 [v]
        | None => None
        end
    | _, _ => None
    end).

Definition fuse (primitive_op1 primitive_op2 : PrimitiveOperation) (sym_counter : nat)
    : option (PrimitiveOperation * nat) :=
  if negb (num_tasks primitive_op1 =? num_tasks primitive_op2) then None (* assert *)
  else
    let pipeline1 := pipeline primitive_op1 in
    let pipeline2 := pipeline primitive_op2 in
    match fuse_num_input_blocks (num_input_blocks (config pipeline1))
            (num_input_blocks (config pipeline2)) with
    | None => None
    | Some nib =>
        let spec := mkBlockwiseSpec
          (fused_blockwise_func (block_function (config pipeline1))
             (block_function (config pipeline2)))
          (fused_func (function (config pipeline1)) (function (config pipeline2)))
          (function_nargs (config pipeline1)) nib
          (reads_map (config pipeline1)) (writes_list (config pipeline2)) in
        let (name, sym_counter') := gensym "fused_apply_blockwise" sym_counter in
        let pipeline := mkCubedPipeline ApplyBlockwise name (mappable pipeline2) spec in
        Some (mkPrimitiveOperation pipeline (source_array_names primitive_op1)
                (target_array primitive_op2)
                (Z.max (projected_mem primitive_op1) (projected_mem primitive_op2))
                (allowed_mem primitive_op2) (reserved_mem primitive_op2)
                (num_tasks primitive_op2) true, sym_counter')
    end.

(* ------------------------------------------------------------------ *)
(** ** Multi-way fusion: [fuse_multiple] *)

(** [zip( *ls)]: the columns of [ls], as many as its shortest member. *)
Definition py_zip_star {A} (dflt : A) (ls : list (list A)) : list (list A) :=
  match ls with
  | [] => []
  | l0 :: _ =>
      let n := fold_left (fun m l => Nat.min m (List.length l)) ls (List.length l0) in
      map (fun j => map (fun l => nth j l dflt) ls) (seq 0 n)
  end.

(** Modelled from the spec: [split_into] (cubed.utils), section 4.4,
    re-partition a sequence into consecutive lists of the given sizes. *)
Fixpoint split_into {A} (xs : list A) (sizes : list nat) : list (list A) :=
  match sizes with
  | [] => []
  | n :: rest => firstn n xs :: split_into (skipn n xs) rest
  end.

(** [enumerate(zip(xs, ys))] *)
Definition enumerate_zip {A B} (xs : list A) (ys : list B) : list (nat * (A * B)) :=
  combine (seq 0 (List.length (combine xs ys))) (combine xs ys).

(** [apply_pipeline_block_func]; a failed [assert isinstance(...)] is [None].
    Lists and iterators of keys are both [Nest]. *)
Definition apply_pipeline_block_func (p : option CubedPipeline) (n_input_blocks : Z)
    (arg : Arg) : option (list Arg) :=
  match p with
  | None => Some [arg]
  | Some p =>
      if n_input_blocks =? 1 then
        match arg with
        | Leaf a => block_function (config p) a
        | Nest _ => None
        end
      else
        match arg with
        | Nest xs =>
            match traverse_option (fun x => match x with
                                            | Leaf a => block_function (config p) a
                                            | Nest _ => None
                                            end) xs with
            | Some bfs => Some (map Nest (py_zip_star (Leaf (""%string, [])) bfs))
            | None => None
            end
        | Leaf _ => None
        end
  end.

Definition fused_multiple_blockwise_func (pipeline : CubedPipeline)
    (predecessor_pipelines : list (option CubedPipeline))
    (predecessor_funcs_nargs : list nat) (out_key : chunk_ind) : option (list Arg) :=
  match block_function (config pipeline) out_key with
  | None => None
  | Some args =>
      match traverse_option (fun '(i, (p, a)) =>
              match nth_error (num_input_blocks (config pipeline)) i with
              | Some n => apply_pipeline_block_func p n a
              | None => None
              end) (enumerate_zip predecessor_pipelines args) with
      | Some groups => Some (map Nest (split_into (List.concat groups) predecessor_funcs_nargs))
      | None => None
      end
  end.

(** [apply_pipeline_func]; the lazy [map] over [zip( *args)] is evaluated
    here at once.  A generator-style predecessor hands a generator object on
    where a block is expected: not modelled ([None]). *)
Definition apply_pipeline_func (p : option CubedPipeline) (n_input_blocks : Z)
    (args : list Val) : option Val :=
  match p with
  | None => hd_error args
  | Some p =>
      match function (config p) with
      | KSingle f =>
          if n_input_blocks =? 1 then f args
          else
            match traverse_option (fun v => match v with
                                            | VList xs => Some xs
                                            | _ => None
                                            end) args with
            | Some cols => option_map VList (traverse_option f (py_zip_star (VList []) cols))
            | None => None
            end
      | KGen _ => None
      end
  end.

(** The per-slot kernel arguments of [fused_func_single] and
    [fused_func_generator]; each group of arguments is a list. *)
Definition fused_func_args (pipeline : CubedPipeline)
    (predecessor_pipelines : list (option CubedPipeline)) (args : list Val)
    : option (list Val) :=
  traverse_option (fun '(i, (p, a)) =>
      match nth_error (num_input_blocks (config pipeline)) i, a with
      | Some n, VList xs => apply_pipeline_func p n xs
      | _, _ => None
      end) (enumerate_zip predecessor_pipelines args).

Definition fused_multiple_func (pipeline : CubedPipeline)
    (predecessor_pipelines : list (option CubedPipeline)) : kernel :=
  match function (config pipeline) with
  | KGen f =>
      KGen (fun args =>
        match fused_func_args pipeline predecessor_pipelines args with
        | Some func_args => f func_args
        | None => None
        end)
  | KSingle f =>
      KSingle (fun args =>
        match fused_func_args pipeline predecessor_pipelines args with
        | Some func_args => f func_args
        | None => None
        end)
  end.

Definition fused_multiple_num_input_blocks (nib : list Z)
    (predecessor_primitive_ops : list (option PrimitiveOperation)) : option (list Z) :=
  let chain := List.concat (map (fun p => match p with
                                     | Some p => num_input_blocks (config (pipeline p))
                                     | None => [1]
                                     end) predecessor_primitive_ops) in
  match chain with
  | [] => Some []
  | _ =>
      match nib with
      | n0 :: _ => Some (map (fun n => n0 * n) chain)
      | [] => None
      end
  end.

Fixpoint fused_source_array_names (names : list string) (i : nat)
    (predecessor_primitive_ops : list (option PrimitiveOperation)) : option (list string) :=
  match predecessor_primitive_ops with
  | [] => Some []
  | None :: rest =>
      match nth_error names i, fused_source_array_names names (S i) rest with
      | Some n, Some ns => Some (n :: ns)
      | _, _ => None
      end
  | Some p :: rest =>
      match fused_source_array_names names (S i) rest with
      | Some ns => Some (source_array_names p ++ ns)
      | None => None
      end
  end.

Fixpoint somes {A} (l : list (option A)) : list A :=
  match l with
  | [] => []
  | Some x :: rest => x :: somes rest
  | None :: rest => somes rest
  end.

Definition fuse_multiple (primitive_op : PrimitiveOperation)
    (predecessor_primitive_ops : list (option PrimitiveOperation)) (sym_counter : nat)
    : option (PrimitiveOperation * nat) :=
  let predecessor_pipelines :=
    map (fun p => option_map pipeline p) predecessor_primitive_ops in
  let pipeline := pipeline primitive_op in
  let predecessor_funcs_nargs :=
    map (fun p => match p with Some p => function_nargs (config p) | None => 1%nat end)
      predecessor_pipelines in
  let read_proxies :=
    reads_map (config pipeline)
      ++ List.concat (map (fun p => reads_map (config p)) (somes predecessor_pipelines)) in
  match fused_multiple_num_input_blocks (num_input_blocks (config pipeline))
          predecessor_primitive_ops,
        fused_source_array_names (source_array_names primitive_op) 0 predecessor_primitive_ops,
        peak_projected_mem (somes predecessor_primitive_ops) with
  | Some fused_nib, Some source_names, Some peak =>
      let spec := mkBlockwiseSpec
        (fused_multiple_blockwise_func pipeline predecessor_pipelines predecessor_funcs_nargs)
        (fused_multiple_func pipeline predecessor_pipelines)
        (function_nargs (config pipeline)) fused_nib read_proxies
        (writes_list (config pipeline)) in
      let (name, sym_counter') := gensym "fused_apply_blockwise" sym_counter in
      let fused_pipeline := mkCubedPipeline ApplyBlockwise name (mappable pipeline) spec in
      Some (mkPrimitiveOperation fused_pipeline source_names (target_array primitive_op)
              (Z.max (projected_mem primitive_op) peak)
              (allowed_mem primitive_op) (reserved_mem primitive_op)
              (num_tasks primitive_op) true, sym_counter')
  | _, _, _ => None
  end.

(* ------------------------------------------------------------------ *)
(** ** Index-notation lowering: [blockwise] *)















(* ------------------------------------------------------------------ *)
(** ** The Python DAG executor *)

(** A Python exception: an identity, and whether its class derives from
    [Exception] (as opposed to a bare [BaseException] such as
    [KeyboardInterrupt]). *)
Record py_exn := mkPyExn { exn_id : nat; is_Exception : bool }.

(** What propagates out of a retried call: the exception itself, or
    tenacity's [RetryError] wrapping the last failed attempt. *)
Inductive raised :=
| Reraised (e : py_exn)
| RetryError (last_attempt : py_exn).

(** [stop_after_attempt(3)] *)
Definition stop_after_attempt : nat := 3.

(** The tenacity [Retrying] loop with its defaults ([retry_if_exception_type()],
    i.e. retry on [Exception]; no wait; [reraise=False]).  [call n] is the
    outcome of the [n]-th attempt ([None]: it returned).  The result is the
    number of attempts made and what propagates. *)
Fixpoint tenacity_call (call : nat -> option py_exn) (attempt_number remaining : nat)
    : nat * option raised :=
  match call attempt_number with
  | None => (attempt_number, None)
  | Some e =>
      if negb (is_Exception e) then (attempt_number, Some (Reraised e))
      else
        match remaining with
        | O => (attempt_number, Some (RetryError e))
        | S r => tenacity_call call (S attempt_number) r
        end
  end.

(** [@retry(stop=stop_after_attempt(3)) def exec_stage_func(func, ...)] *)
Definition exec_stage_func (call : nat -> option py_exn) : nat * option raised :=
  tenacity_call call 1 (stop_after_attempt - 1).

(** A stage: its [mappable] (task ids, or [None]), and the outcome of
    each attempt of its function on a task. *)
Record Stage := mkStage {
  stage_mappable : option (list nat);
  stage_call : option nat -> nat -> option py_exn
}.

(** One executed task: its key, the attempts made, what propagated. *)
Definition task_entry := (option nat * nat * option raised)%type.

Record exec_state := mkExecState {
  executed : list task_entry;
  callbacks : nat      (* [task_callback.increment()] calls *)
}.

(** One call of [exec_stage_func] followed, on return, by
    [task_callback.increment()] when a callback is given. *)
Definition run_one (call : nat -> option py_exn) (m : option nat) (task_callback : bool)
    (st : exec_state) : exec_state * option raised :=
  let (n, r) := exec_stage_func call in
  match r with
  | None =>
      (mkExecState (executed st ++ [(m, n, None)])
         (if task_callback then S (callbacks st) else callbacks st), None)
  | Some err => (mkExecState (executed st ++ [(m, n, Some err)]) (callbacks st), Some err)
  end.

Fixpoint run_mappable (stage : Stage) (ms : list nat) (task_callback : bool)
    (st : exec_state) : exec_state * option raised :=
  match ms with
  | [] => (st, None)
  | m :: rest =>
      match run_one (stage_call stage (Some m)) (Some m) task_callback st with
      | (st', None) => run_mappable stage rest task_callback st'
      | res => res
      end
  end.

Definition run_stage (stage : Stage) (task_callback : bool) (st : exec_state)
    : exec_state * option raised :=
  match stage_mappable stage with
  | Some ms => run_mappable stage ms task_callback st
  | None => run_one (stage_call stage None) None task_callback st
  end.

Fixpoint run_stages (stages : list Stage) (task_callback : bool) (st : exec_state)
    : exec_state * option raised :=
  match stages with
  | [] => (st, None)
  | stage :: rest =>
      match run_stage stage task_callback st with
      | (st', None) => run_stages rest task_callback st'
      | res => res
      end
  end.

Fixpoint run_nodes (nodes : list (option (list Stage))) (task_callback : bool)
    (st : exec_state) : exec_state * option raised :=
  match nodes with
  | [] => (st, None)
  | None :: rest => run_nodes rest task_callback st       (* no pipeline: continue *)
  | Some stages :: rest =>
      match run_stages stages task_callback st with
      | (st', None) => run_nodes rest task_callback st'
      | res => res
      end
  end.

(** [PythonDagExecutor.execute_dag]: the nodes' pipelines (their stages)
    listed in [nx.topological_sort] order, visited in reverse. *)
Definition execute_dag (topological_order : list (option (list Stage)))
    (task_callback : bool) : exec_state * option raised :=
  run_nodes (rev topological_order) task_callback (mkExecState [] 0).

(* ------------------------------------------------------------------ *)
(** ** Statement-side definitions *)

(** The maximum of a list of integers (0 for the empty list). *)
Definition max_Z (l : list Z) : Z :=
  match l with
  | [] => 0
  | x :: rest => fold_left Z.max rest x
  end.

(** An operation equal to [op] except for its [fusable] flag. *)
Definition with_fusable (b : bool) (op : PrimitiveOperation) : PrimitiveOperation :=
  mkPrimitiveOperation (pipeline op) (source_array_names op) (target_array op)
    (projected_mem op) (allowed_mem op) (reserved_mem op) (num_tasks op) b.

(** Two operations that differ at most in their [fusable] flag. *)
Definition same_but_fusable (op op' : PrimitiveOperation) : Prop :=
  exists b, op' = with_fusable b op.

(** A small blockwise operation for concrete runs: one input [in_0] of array
    [src], a kernel [f], output array [dst] (one chunk of 8-byte items), the
    given fan-in tuple, and keys [[0]] .. [[n-1]]. *)
Definition example_op (src dst : string) (f : kernel) (nib : list Z) (tgt : target)
    (projected allowed tasks : Z) : PrimitiveOperation :=
  mkPrimitiveOperation
    (mkCubedPipeline ApplyBlockwise ("apply_blockwise"%string, 1%nat)
       (map (fun i => PyList [Z.of_nat i]) (seq 0 (Z.to_nat tasks)))
       (mkBlockwiseSpec (fun k => Some [Leaf ("in_0"%string, snd k)]) f
          (List.length nib) nib [("in_0"%string, src)] [dst]))
    ["in_0"%string] tgt projected allowed 0 tasks true.

Definition example_target (name : string) : target := TSingle (mkArrayRef name [2] 8 [1]).









(** Executor bookkeeping: a task entry that returned, the number of such
    entries, an entry's attempt count within the retry bound. *)
Definition task_succeeded (t : task_entry) : bool :=
  match t with (_, _, None) => true | _ => false end.

Definition count_success (ts : list task_entry) : nat :=
  List.length (filter task_succeeded ts).

Definition attempts_in_bound (t : task_entry) : Prop :=
  match t with (_, n, _) => (1 <= n <= stop_after_attempt)%nat end.

(** The executor invariant: one callback per returned task, and every task
    attempted between once and [stop_after_attempt] times. *)
Definition exec_inv (task_callback : bool) (st : exec_state) : Prop :=
  callbacks st = (if task_callback then count_success (executed st) else 0%nat) /\
  Forall attempts_in_bound (executed st).

(** From [st] to [st']: the tasks run in between all returned, except for a
    last one whose error propagated as [r]. *)
Definition exec_step (task_callback : bool) (st st' : exec_state) (r : option raised) : Prop :=
  exec_inv task_callback st' /\
  exists new, executed st' = executed st ++ new /\
    match r with
    | None => Forall (fun t => task_succeeded t = true) new
    | Some err =>
        exists pre m n, new = pre ++ [(m, n, Some err)] /\
          Forall (fun t => task_succeeded t = true) pre
    end.

(** The block a single-output task computes at key [k] from store [s]: the
    block function, the reads through [reads_map], the plain kernel. *)
Definition task_value (cfg : BlockwiseSpec) (s : store) (k : list Z) : option Val :=
  match block_function cfg ("out"%string, k) with
  | Some l =>
      match traverse_option (map_nested_get_chunk (reads_map cfg) s) l with
      | Some args =>
          match function cfg with
          | KSingle f => f args
          | KGen _ => None
          end
      | None => None
      end
  | None => None
  end.

(** Relating a run of the consumer after the producer ([sa]) with a run of
    the fused operation ([sb]): equal off the producer's target [tP], which
    holds the producer's output [s1 tP] on one side and its initial contents
    [s tP] on the other; the consumer only writes [tQ]. *)
Definition fusion_rel (s s1 : store) (tP tQ : string) (sa sb : store) : Prop :=
  (forall arr k, arr <> tP -> sa arr k = sb arr k) /\
  (forall k, sa tP k = s1 tP k) /\
  (forall k, sb tP k = s tP k) /\
  (forall arr k, arr <> tQ -> sa arr k = s1 arr k).

(** A producer [x -> t1] adding one, a consumer [t1 -> t2] doubling, over a
    single block. *)
Definition add_one (args : list Val) : option Val :=
  match args with [VBlock [z]] => Some (VBlock [z + 1]) | _ => None end.
Definition double (args : list Val) : option Val :=
  match args with [VBlock [z]] => Some (VBlock [2 * z]) | _ => None end.
Definition add_one_kernel : kernel := KSingle add_one.
Definition double_kernel : kernel := KSingle double.
Definition producer_op : PrimitiveOperation :=
  example_op "x" "t1" add_one_kernel [1] (example_target "t1") 100 1000 1.
Definition consumer_op : PrimitiveOperation :=
  example_op "t1" "t2" double_kernel [1] (example_target "t2") 100 1000 1.
Definition store_fives : store := fun _ _ => VBlock [5].

(** [op] with another [allowed_mem]. *)
Definition with_allowed_mem (a : Z) (op : PrimitiveOperation) : PrimitiveOperation :=
  mkPrimitiveOperation (pipeline op) (source_array_names op) (target_array op)
    (projected_mem op) a (reserved_mem op) (num_tasks op) (fusable op).

(** Two operations alike in everything but their pipeline name: block
    functions and kernels compared on every input. *)
Definition same_op_but_name (op op' : PrimitiveOperation) : Prop :=
  pipe_function (pipeline op) = pipe_function (pipeline op') /\
  mappable (pipeline op) = mappable (pipeline op') /\
  (forall k, block_function (config (pipeline op)) k = block_function (config (pipeline op')) k) /\
  (forall args, run_kernel (function (config (pipeline op))) args
                = run_kernel (function (config (pipeline op'))) args) /\
  function_nargs (config (pipeline op)) = function_nargs (config (pipeline op')) /\
  num_input_blocks (config (pipeline op)) = num_input_blocks (config (pipeline op')) /\
  reads_map (config (pipeline op)) = reads_map (config (pipeline op')) /\
  writes_list (config (pipeline op)) = writes_list (config (pipeline op')) /\
  source_array_names op = source_array_names op' /\
  target_array op = target_array op' /\
  projected_mem op = projected_mem op' /\
  allowed_mem op = allowed_mem op' /\
  reserved_mem op = reserved_mem op' /\
  num_tasks op = num_tasks op' /\
  fusable op = fusable op'.

(** The operation [fuse] builds from [primitive_op1], [primitive_op2], the
    fused [num_input_blocks] and the counter. *)
Definition fused_pair_op (primitive_op1 primitive_op2 : PrimitiveOperation) (nib : list Z)
    (sym_counter : nat) : PrimitiveOperation :=
  let pipeline1 := pipeline primitive_op1 in
  let pipeline2 := pipeline primitive_op2 in
  mkPrimitiveOperation
    (mkCubedPipeline ApplyBlockwise ("fused_apply_blockwise"%string, S sym_counter)
       (mappable pipeline2)
       (mkBlockwiseSpec
          (fused_blockwise_func (block_function (config pipeline1))
             (block_function (config pipeline2)))
          (fused_func (function (config pipeline1)) (function (config pipeline2)))
          (function_nargs (config pipeline1)) nib
          (reads_map (config pipeline1)) (writes_list (config pipeline2))))
    (source_array_names primitive_op1) (target_array primitive_op2)
    (Z.max (projected_mem primitive_op1) (projected_mem primitive_op2))
    (allowed_mem primitive_op2) (reserved_mem primitive_op2) (num_tasks primitive_op2) true.

(** The keys of the tasks of a stage, in the order [execute_dag] submits
    them ([None] for a stage without [mappable]), and of a list of nodes. *)
Definition stage_task_keys (stage : Stage) : list (option nat) :=
  match stage_mappable stage with
  | Some ms => map Some ms
  | None => [None]
  end.

Definition dag_task_keys (nodes : list (option (list Stage))) : list (option nat) :=
  flat_map (fun node => match node with
                        | Some stages => flat_map stage_task_keys stages
                        | None => []
                        end) nodes.

Definition task_key (t : task_entry) : option nat :=
  match t with (m, _, _) => m end.

(** The value of a field in a [(field, value)] list: the first binding. *)
Fixpoint field_lookup (fs : list (string * Val)) (g : string) : option Val :=
  match fs with
  | [] => None
  | (f, v) :: rest => if String.eqb g f then Some v else field_lookup rest g
  end.

(* ------------------------------------------------------------------ *)
(** ** Example operations and stores *)

(** A call that raises [e] at every attempt. *)
Definition always_raises (e : py_exn) : nat -> option py_exn := fun _ => Some e.

(** A generator kernel writing two arrays [y] and [z]. *)
Definition two_outputs_config : BlockwiseSpec :=
  mkBlockwiseSpec (fun k => Some [Leaf ("in_0"%string, snd k)])
    (KGen (fun args => Some (args ++ args))) 1 [1] [("in_0"%string, "x"%string)]
    ["y"%string; "z"%string].

(** A structured output [p] with fields [a] and [b]; the kernel returns a
    dict setting [b] only. *)
Definition dict_config : BlockwiseSpec :=
  mkBlockwiseSpec (fun k => Some [Leaf ("in_0"%string, snd k)])
    (KSingle (fun _ => Some (VDict [("b"%string, VBlock [7])]))) 1 [1]
    [("in_0"%string, "x"%string)] ["p"%string].

Definition struct_store : store :=
  fun a _ => if String.eqb a "p" then VStruct [("a"%string, VBlock [1]); ("b"%string, VBlock [2])]
             else VBlock [5].

(** [P] reads [in_0] from [x]; its predecessor [Q] binds [in_0] to [y]. *)
Definition shadow_P : PrimitiveOperation :=
  example_op "x" "out" double_kernel [1] (example_target "out") 100 1000 1.
Definition shadow_Q : PrimitiveOperation :=
  example_op "y" "x" add_one_kernel [1] (example_target "x") 100 1000 1.

(** An operation [z <- x + y] with two input slots and two tasks. *)
Definition add2 (args : list Val) : option Val :=
  match args with [VBlock [a]; VBlock [b]] => Some (VBlock [a + b]) | _ => None end.

Definition sum_op : PrimitiveOperation :=
  mkPrimitiveOperation
    (mkCubedPipeline ApplyBlockwise ("apply_blockwise"%string, 1%nat) [PyList [0]; PyList [1]]
       (mkBlockwiseSpec (fun k => Some [Leaf ("in_0"%string, snd k); Leaf ("in_1"%string, snd k)])
          (KSingle add2) 2 [1; 1] [("in_0"%string, "x"%string); ("in_1"%string, "y"%string)]
          ["z"%string]))
    ["x"%string; "y"%string] (example_target "z") 100 1000 0 2 true.

(** [x] holds 3 everywhere, [y] holds [4 + 10 * k] at key [[k]]. *)
Definition xy_store : store :=
  fun a k => if String.eqb a "x" then VBlock [3] else VBlock [4 + 10 * hd 0 k].


(** The executor state after running [keys] with every call returning. *)
Definition exec_ok (task_callback : bool) (st st' : exec_state) (keys : list (option nat)) : Prop :=
  map task_key (executed st') = map task_key (executed st) ++ keys /\
  callbacks st' = (callbacks st + if task_callback then List.length keys else 0)%nat.

(** Three nodes in topological order: two tasks, no pipeline, one task
    without [mappable]; every call returns. *)
Definition all_ok_nodes : list (option (list Stage)) :=
  [Some [mkStage (Some [0; 1]%nat) (fun _ _ => None)]; None;
   Some [mkStage None (fun _ _ => None)]].

(* ================================================================== *)
(** * Properties *)

(* ------------------------------------------------------------------ *)
(** ** Arithmetic of the folds *)

Lemma fold_add_acc (l : list Z) (x : Z) :
  fold_left Z.add l x = x + fold_left Z.add l 0.
Proof.
  revert x; induction l as [|y l IH]; intro x; simpl; [lia|].
  rewrite (IH (x + y)), (IH y); lia.
Qed.

Lemma fold_add_map {A} (g : A -> Z) (l : list A) (x : Z) :
  fold_left (fun acc a => acc + g a) l x = x + sum_Z (map g l).
Proof.
  unfold sum_Z; revert x; induction l as [|a l IH]; intro x; simpl; [lia|].
  rewrite IH, (fold_add_acc _ (g a)); lia.
Qed.

Lemma fold_mul_nonneg (l : list Z) (x : Z) :
  0 <= x -> Forall (fun y => 0 <= y) l -> 0 <= fold_left Z.mul l x.
Proof.
  revert x; induction l as [|y l IH]; intros x Hx Hl; simpl; [lia|].
  inversion Hl; subst; apply IH; [nia|assumption].
Qed.

Lemma output_chunk_bytes_nonneg (o : OutSpec) :
  0 <= out_itemsize o -> 0 <= output_chunk_bytes o.
Proof.
  intro H; unfold output_chunk_bytes, chunk_memory, prod_Z, to_chunksize.
  apply Z.mul_nonneg_nonneg; [assumption|].
  apply fold_mul_nonneg; [lia|].
  apply Forall_forall; intros y Hy; apply in_map_iff in Hy as (c & <- & _); lia.
Qed.

Lemma fold_max_mono (l : list Z) (a b : Z) :
  a <= b -> fold_left Z.max l a <= fold_left Z.max l b.
Proof.
  revert a b; induction l as [|z l IH]; intros a b Hab; simpl; [lia|]. apply IH; lia.
Qed.

Lemma fold_max_map {A} (g : A -> Z) (l : list A) (x : Z) :
  fold_left (fun acc a => Z.max acc (g a)) l x = fold_left Z.max (map g l) x.
Proof.
  revert x; induction l as [|a l IH]; intro x; simpl; [reflexivity|]. apply IH.
Qed.

Lemma output_chunk_memory_max (outs : list OutSpec) :
  Forall (fun o => 0 <= out_itemsize o) outs ->
  output_chunk_memory outs = max_Z (map (fun o => 2 * output_chunk_bytes o) outs).
Proof.
  intro H; unfold output_chunk_memory; rewrite fold_max_map.
  destruct outs as [|o outs]; [reflexivity|].
  inversion H; subst.
  pose proof (output_chunk_bytes_nonneg o ltac:(assumption)) as Ho.
  cbn [map fold_left max_Z].
  rewrite (Z.max_r 0) by lia.
  replace (map (fun o0 => output_chunk_bytes o0 * 2) outs)
    with (map (fun o0 => 2 * output_chunk_bytes o0) outs)
    by (apply map_ext; intro; lia).
  f_equal; lia.
Qed.

(* ------------------------------------------------------------------ *)
(** ** The Cartesian product of block ranges *)

Lemma in_product_ranges (ns : list nat) (xs : list Z) :
  In xs (product_ranges ns) <-> Forall2 (fun x n => 0 <= x < Z.of_nat n) xs ns.
Proof.
  revert xs; induction ns as [|n ns IH]; intro xs; simpl.
  - split.
    + intros [<-|[]]; constructor.
    + intro H; inversion H; auto.
  - rewrite in_flat_map; split.
    + intros (i & Hi & Hin). apply in_seq in Hi.
      apply in_map_iff in Hin as (t & <- & Ht).
      constructor; [lia|]. apply IH; assumption.
    + intro H; inversion H as [|x n' xs' ns' Hx Hrest]; subst.
      exists (Z.to_nat x); split; [apply in_seq; lia|].
      apply in_map_iff; exists xs'; split; [f_equal; lia|].
      apply IH; assumption.
Qed.

Lemma length_flat_map_const {A B} (f : A -> list B) (l : list A) (k : nat) :
  (forall x, List.length (f x) = k) -> List.length (flat_map f l) = (List.length l * k)%nat.
Proof.
  intro H; induction l as [|x l IH]; simpl; [reflexivity|].
  rewrite length_app, H, IH; reflexivity.
Qed.

Lemma fold_mul_nat_acc (l : list nat) (a : nat) :
  fold_left Nat.mul l a = (a * fold_left Nat.mul l 1)%nat.
Proof.
  revert a; induction l as [|y l IH]; intro a; simpl; [lia|].
  rewrite (IH (a * y)%nat), (IH (y + 0)%nat); lia.
Qed.

Lemma length_product_ranges (ns : list nat) :
  List.length (product_ranges ns) = fold_left Nat.mul ns 1%nat.
Proof.
  induction ns as [|n ns IH]; simpl; [reflexivity|].
  rewrite (length_flat_map_const _ _ (List.length (product_ranges ns))).
  - rewrite length_seq, IH, (fold_mul_nat_acc ns (n + 0)); lia.
  - intro; apply length_map.
Qed.

Lemma prod_Z_of_nat (l : list nat) :
  fold_left Z.mul (map Z.of_nat l) 1 = Z.of_nat (fold_left Nat.mul l 1%nat).
Proof.
  change 1 with (Z.of_nat 1). generalize 1%nat as a.
  induction l as [|y l IH]; intro a; simpl; [reflexivity|].
  rewrite <- Nat2Z.inj_mul; apply IH.
Qed.

(* ------------------------------------------------------------------ *)
(** ** [general_blockwise]: what a successful call builds *)

Lemma last_chunks_normal_last (outs : list OutSpec) (cn : list (list Z)) (d : OutSpec) :
  last_chunks_normal outs = Some cn -> outs <> [] /\ cn = out_chunks_normal (last outs d).
Proof.
  unfold last_chunks_normal.
  destruct (rev outs) as [|o r] eqn:Hr; [discriminate|].
  intro H; injection H as <-.
  assert (Houts : outs = rev r ++ [o]).
  { rewrite <- (rev_involutive outs), Hr; reflexivity. }
  split.
  - intro Hn; subst outs; destruct (rev r); discriminate.
  - rewrite Houts, last_last; reflexivity.
Qed.

Lemma general_blockwise_inl func bf arrays allowed reserved outs in_names extra fusable0
    nib counter op counter' :
  general_blockwise func bf arrays allowed reserved outs in_names extra fusable0 nib counter
    = inl (op, counter') ->
  blockwise_projected_mem reserved extra arrays outs <= allowed /\
  exists cn,
    last_chunks_normal outs = Some cn /\
    projected_mem op = blockwise_projected_mem reserved extra arrays outs /\
    allowed_mem op = allowed /\ reserved_mem op = reserved /\
    num_tasks op = prod_Z (map (fun c => Z.of_nat (List.length c)) cn) /\
    mappable (pipeline op)
      = map (fun t => PyList (pyseq_items t))
            (map PyTuple (product_ranges (map (@List.length Z) cn))) /\
    fusable op = fusable0 /\ pipe_function (pipeline op) = ApplyBlockwise.
Proof.
  unfold general_blockwise.
  destruct (blockwise_projected_mem reserved extra arrays outs >? allowed) eqn:Hm;
    [discriminate|].
  destruct (last_chunks_normal outs) as [cn|] eqn:Hl; [|discriminate].
  intro H; injection H as <- <-.
  split; [rewrite Z.gtb_ltb in Hm; apply Z.ltb_ge in Hm; lia|].
  exists cn; repeat split; reflexivity.
Qed.

Lemma Forall2_map_r {A B C} (R : A -> C -> Prop) (f : B -> C) xs (l : list B) :
  Forall2 R xs (map f l) <-> Forall2 (fun x c => R x (f c)) xs l.
Proof.
  revert l; induction xs as [|x xs IH]; intros [|c l]; simpl; split; intro H;
    inversion H; subst; constructor; try apply IH; auto.
Qed.

(** C2 (corrected): after a successful [general_blockwise], [num_tasks] is
    the product of the numbers of chunks of the normalized grid of the LAST
    output, and [mappable] lists exactly the keys of that grid, each a
    Python list. *)
Theorem general_blockwise_tasks_of_last_output func bf arrays allowed reserved outs
    in_names extra fusable0 nib counter op counter' :
  general_blockwise func bf arrays allowed reserved outs in_names extra fusable0 nib counter
    = inl (op, counter') ->
  outs <> [] /\
  forall d : OutSpec,
    let cn := out_chunks_normal (last outs d) in
    num_tasks op = prod_Z (map (fun c => Z.of_nat (List.length c)) cn) /\
    Z.of_nat (List.length (mappable (pipeline op))) = num_tasks op /\
    (forall m, In m (mappable (pipeline op)) -> exists xs, m = PyList xs) /\
    (forall xs, In (PyList xs) (mappable (pipeline op)) <->
                Forall2 (fun x c => 0 <= x < Z.of_nat (List.length c)) xs cn).
Proof.
  intro H.
  apply general_blockwise_inl in H as (_ & cn & Hl & _ & _ & _ & Hnt & Hmap & _).
  assert (Hne : outs <> []) by (destruct outs; [discriminate|congruence]).
  split; [exact Hne|].
  intro d; pose proof (last_chunks_normal_last outs cn d Hl) as [_ Hcn].
  cbv zeta; rewrite <- Hcn, Hnt, Hmap.
  split; [reflexivity|split; [|split]].
  - rewrite !length_map, length_product_ranges.
    unfold prod_Z; rewrite <- prod_Z_of_nat, map_map; reflexivity.
  - intros m Hm. rewrite map_map in Hm. apply in_map_iff in Hm as (t & <- & _).
    eexists; reflexivity.
  - intro xs; rewrite map_map, in_map_iff; split.
    + intros (t & Ht & Hin). injection Ht as <-.
      apply in_product_ranges, Forall2_map_r in Hin; exact Hin.
    + intro H2. exists xs; split; [reflexivity|].
      apply in_product_ranges, Forall2_map_r; exact H2.
Qed.

(** A concrete successful call: one input [(4,)] chunked [(2,)] of float64,
    one output of two chunks of length 2. *)
Lemma general_blockwise_tasks_of_last_output_witness :
  exists op counter',
    general_blockwise (KSingle (fun l => hd_error l))
      (fun k => Some [Leaf ("in_0"%string, snd k)])
      [mkArrayRef "a" [4] 8 [2]] 1000 0 [mkOutSpec "o" 8 [[2; 2]]] None 0 true None 0
      = inl (op, counter') /\
    num_tasks op = 2 /\
    [mkOutSpec "o" 8 [[2; 2]]] <> [] /\
    Z.of_nat (List.length (mappable (pipeline op))) = num_tasks op.
Proof.
  do 2 eexists. split; [reflexivity|].
  pose proof (general_blockwise_tasks_of_last_output
     (KSingle (fun l => hd_error l)) (fun k => Some [Leaf ("in_0"%string, snd k)])
     [mkArrayRef "a" [4] 8 [2]] 1000 0 [mkOutSpec "o" 8 [[2; 2]]] None 0 true None 0
     _ _ eq_refl) as [Hne H].
  destruct (H (mkOutSpec "o" 8 [[2; 2]])) as (Hnt & Hlen & _).
  split; [exact Hnt|split; [exact Hne|exact Hlen]].
Defined.

(** C2 counterexample: with two outputs of 2 and 1 chunks, [num_tasks] is 1,
    not the 2 chunks of the first output. *)
Lemma general_blockwise_num_tasks_not_first_output :
  exists op counter',
    general_blockwise (KGen (fun l => Some l))
      (fun k => Some [Leaf ("in_0"%string, snd k)])
      [mkArrayRef "a" [4] 8 [2]] 1000 0
      [mkOutSpec "o" 8 [[2; 2]]; mkOutSpec "p" 4 [[4]]] None 0 true None 0
      = inl (op, counter') /\
    num_tasks op = 1 /\
    num_tasks op <> prod_Z (map (fun c => Z.of_nat (List.length c))
                                (out_chunks_normal (mkOutSpec "o" 8 [[2; 2]]))).
Proof.
  do 2 eexists. split; [reflexivity|]. split; [reflexivity|]. vm_compute. discriminate.
Qed.

(** C3: the projected memory of a successful [general_blockwise] is
    [reserved_mem + extra_projected_mem], plus twice the chunk bytes of every
    input, plus the largest of twice the chunk bytes of the outputs. *)
Theorem general_blockwise_projected_mem_formula func bf arrays allowed reserved outs
    in_names extra fusable0 nib counter op counter' :
  Forall (fun o => 0 <= out_itemsize o) outs ->
  general_blockwise func bf arrays allowed reserved outs in_names extra fusable0 nib counter
    = inl (op, counter') ->
  projected_mem op
    = reserved + extra
      + sum_Z (map (fun a => 2 * input_chunk_bytes a) arrays)
      + max_Z (map (fun o => 2 * output_chunk_bytes o) outs).
Proof.
  intros Hpos H.
  apply general_blockwise_inl in H as (_ & cn & _ & Hp & _).
  rewrite Hp; unfold blockwise_projected_mem; cbv zeta.
  rewrite fold_add_map, output_chunk_memory_max by assumption.
  replace (map (fun a => input_chunk_bytes a * 2) arrays)
    with (map (fun a => 2 * input_chunk_bytes a) arrays)
    by (apply map_ext; intro; lia).
  reflexivity.
Qed.

Lemma general_blockwise_projected_mem_formula_witness :
  exists op counter',
    Forall (fun o => 0 <= out_itemsize o) [mkOutSpec "o" 8 [[2; 2]]] /\
    general_blockwise (KSingle (fun l => hd_error l))
      (fun k => Some [Leaf ("in_0"%string, snd k)])
      [mkArrayRef "a" [4] 8 [2]] 1000 0 [mkOutSpec "o" 8 [[2; 2]]] None 0 true None 0
      = inl (op, counter') /\
    projected_mem op = 64.
Proof.
  assert (Hpos : Forall (fun o => 0 <= out_itemsize o) [mkOutSpec "o" 8 [[2; 2]]])
    by (repeat constructor; simpl; lia).
  destruct (general_blockwise (KSingle (fun l => hd_error l))
      (fun k => Some [Leaf ("in_0"%string, snd k)])
      [mkArrayRef "a" [4] 8 [2]] 1000 0 [mkOutSpec "o" 8 [[2; 2]]] None 0 true None 0)
    as [[op c]|e] eqn:E; [|vm_compute in E; discriminate].
  exists op, c. split; [exact Hpos|split; [reflexivity|]].
  rewrite (general_blockwise_projected_mem_formula _ _ _ _ _ _ _ _ _ _ _ _ _ Hpos E).
  reflexivity.
Defined.

(** C4: [general_blockwise] fails with the memory error exactly when the
    projected memory exceeds [allowed_mem]; the error carries the projected,
    allowed and reserved memory; otherwise the check is passed (the only
    other failure is a call with no output at all). *)
Theorem general_blockwise_memory_check func bf arrays allowed reserved outs in_names
    extra fusable0 nib counter :
  let r := general_blockwise func bf arrays allowed reserved outs in_names extra
             fusable0 nib counter in
  let projected := blockwise_projected_mem reserved extra arrays outs in
  ((exists p a rs, r = inr (MemoryBudgetExceeded p a rs)) <-> projected > allowed) /\
  (forall p a rs, r = inr (MemoryBudgetExceeded p a rs) ->
     p = projected /\ a = allowed /\ rs = reserved) /\
  (projected <= allowed ->
     (exists op counter', r = inl (op, counter') /\ projected_mem op = projected) \/
     (outs = [] /\ r = inr NameErrorChunksNormal)).
Proof.
  cbv zeta; unfold general_blockwise; cbv zeta.
  destruct (blockwise_projected_mem reserved extra arrays outs >? allowed) eqn:Hm.
  - rewrite Z.gtb_ltb, Z.ltb_lt in Hm.
    split; [split; [intros _; lia|intros _; eauto]|].
    split; [intros p a rs H; injection H as <- <- <-; auto|].
    intro; lia.
  - rewrite Z.gtb_ltb, Z.ltb_ge in Hm.
    destruct (last_chunks_normal outs) as [cn|] eqn:Hl.
    + split; [split; [intros (p & a & rs & H); discriminate|lia]|].
      split; [intros p a rs H; discriminate|].
      intros _; left; do 2 eexists; split; reflexivity.
    + split; [split; [intros (p & a & rs & H); discriminate|lia]|].
      split; [intros p a rs H; discriminate|].
      intros _; right; split; [|reflexivity].
      unfold last_chunks_normal in Hl.
      destruct outs as [|o outs]; [reflexivity|].
      simpl in Hl; destruct (rev outs ++ [o]) eqn:E; [|discriminate].
      destruct (rev outs); discriminate.
Qed.

Lemma sum_Z_map_mono {A} (g g' : A -> Z) (l l' : list A) :
  Forall2 (fun a a' => g a <= g' a') l l' -> sum_Z (map g l) <= sum_Z (map g' l').
Proof.
  unfold sum_Z; intro H; induction H as [|a a' l l' Ha H IH]; simpl; [lia|].
  rewrite (fold_add_acc _ (g a)), (fold_add_acc _ (g' a')); lia.
Qed.

Lemma fold_max_Forall2 (l l' : list Z) (a b : Z) :
  Forall2 Z.le l l' -> a <= b -> fold_left Z.max l a <= fold_left Z.max l' b.
Proof.
  intro H; revert a b; induction H as [|x x' l l' Hx H IH]; intros a b Hab; simpl;
    [lia|]. apply IH; lia.
Qed.

(** C8: the projected memory of [general_blockwise] does not decrease when
    the chunk byte size of inputs or outputs grows, all else fixed (here: any
    number of them at once, position by position). *)
Theorem blockwise_projected_mem_monotonic reserved extra arrays arrays' outs outs' :
  Forall2 (fun a a' => input_chunk_bytes a <= input_chunk_bytes a') arrays arrays' ->
  Forall2 (fun o o' => output_chunk_bytes o <= output_chunk_bytes o') outs outs' ->
  blockwise_projected_mem reserved extra arrays outs
    <= blockwise_projected_mem reserved extra arrays' outs'.
Proof.
  intros Hin Hout; unfold blockwise_projected_mem; cbv zeta.
  rewrite (fold_add_map (fun a => input_chunk_bytes a * 2) arrays),
          (fold_add_map (fun a => input_chunk_bytes a * 2) arrays').
  assert (Hs : sum_Z (map (fun a => input_chunk_bytes a * 2) arrays)
               <= sum_Z (map (fun a => input_chunk_bytes a * 2) arrays')).
  { apply sum_Z_map_mono. eapply Forall2_impl; [|exact Hin]. simpl; intros; lia. }
  assert (Ho : output_chunk_memory outs <= output_chunk_memory outs').
  { unfold output_chunk_memory.
    rewrite (fold_max_map (fun o => output_chunk_bytes o * 2) outs),
            (fold_max_map (fun o => output_chunk_bytes o * 2) outs').
    apply fold_max_Forall2; [|lia].
    clear - Hout; induction Hout; simpl; constructor; [lia|assumption]. }
  lia.
Qed.

Lemma blockwise_projected_mem_monotonic_witness :
  Forall2 (fun a a' => input_chunk_bytes a <= input_chunk_bytes a')
    [mkArrayRef "a" [4] 8 [2]] [mkArrayRef "a" [4] 8 [4]] /\
  Forall2 (fun o o' => output_chunk_bytes o <= output_chunk_bytes o')
    [mkOutSpec "o" 8 [[2; 2]]] [mkOutSpec "o" 8 [[2; 2]]] /\
  blockwise_projected_mem 0 0 [mkArrayRef "a" [4] 8 [2]] [mkOutSpec "o" 8 [[2; 2]]]
    <= blockwise_projected_mem 0 0 [mkArrayRef "a" [4] 8 [4]] [mkOutSpec "o" 8 [[2; 2]]].
Proof.
  assert (H1 : Forall2 (fun a a' => input_chunk_bytes a <= input_chunk_bytes a')
                 [mkArrayRef "a" [4] 8 [2]] [mkArrayRef "a" [4] 8 [4]])
    by (repeat constructor; vm_compute; discriminate).
  assert (H2 : Forall2 (fun o o' => output_chunk_bytes o <= output_chunk_bytes o')
                 [mkOutSpec "o" 8 [[2; 2]]] [mkOutSpec "o" 8 [[2; 2]]])
    by (repeat constructor; vm_compute; discriminate).
  split; [exact H1|split; [exact H2|]].
  exact (blockwise_projected_mem_monotonic 0 0 _ _ _ _ H1 H2).
Defined.

(* ------------------------------------------------------------------ *)
(** ** Multi-way fusion decision *)

Lemma peak_projected_mem_from_single (m : MemoryModeller) (ops : list PrimitiveOperation) :
  Forall (fun p => exists a, target_array p = TSingle a) ops ->
  exists peak, peak_projected_mem_from m ops = Some peak.
Proof.
  intro H; revert m; induction H as [|p ops [a Ha] _ IH]; intro m; simpl.
  - eexists; reflexivity.
  - rewrite Ha; apply IH.
Qed.

Lemma sum_Z_scale (c : Z) (l : list Z) :
  sum_Z (map (fun nj => c * nj) l) = c * sum_Z l.
Proof.
  unfold sum_Z; induction l as [|x l IH]; simpl; [lia|].
  rewrite (fold_add_acc _ (c * x)), (fold_add_acc _ x), IH; lia.
Qed.

Lemma sum_Z_cons (x : Z) (l : list Z) : sum_Z (x :: l) = x + sum_Z l.
Proof. unfold sum_Z; simpl; rewrite fold_add_acc; reflexivity. Qed.

Lemma total_num_input_blocks_sum (nib : list Z) (preds : list PrimitiveOperation) :
  total_num_input_blocks nib preds
  = sum_Z (map (fun x => fst x * sum_Z (num_input_blocks (config (pipeline (snd x)))))
               (combine nib preds)).
Proof.
  unfold total_num_input_blocks.
  assert (H : forall l acc,
    fold_left (fun total '(ni, p) =>
        fold_left (fun total nj => total + ni * nj)
          (num_input_blocks (config (pipeline p))) total) l acc
    = acc + sum_Z (map (fun x => fst x * sum_Z (num_input_blocks (config (pipeline (snd x)))))
                       l)).
  { induction l as [|[ni p] l IH]; intro acc; [simpl; unfold sum_Z; simpl; lia|].
    cbn [fold_left map fst snd].
    rewrite (fold_add_map (fun nj => ni * nj)), sum_Z_scale, IH, sum_Z_cons.
    lia. }
  rewrite H; lia.
Qed.

Lemma uniform_forallb (nib : list Z) :
  forallb (fun n => hd 0 nib =? n) nib = true <->
  (forall n m, In n nib -> In m nib -> n = m).
Proof.
  rewrite forallb_forall; split.
  - intros H n m Hn Hm.
    pose proof (H n Hn); pose proof (H m Hm). lia.
  - intros H n Hn. destruct nib as [|x rest]; [destruct Hn|].
    simpl. apply Z.eqb_eq, H; [left; reflexivity|exact Hn].
Qed.

Lemma forallb_Forall_true {A} (f : A -> bool) (l : list A) :
  forallb f l = true <-> Forall (fun x => f x = true) l.
Proof. rewrite forallb_forall, Forall_forall; reflexivity. Qed.

(** C5 (corrected): when every predecessor has a single target array,
    [can_fuse_multiple_primitive_ops] returns a boolean (it does not raise),
    and it is true exactly when P and all predecessors are candidates, the
    modeller's peak for the predecessors is at most P's [allowed_mem], P's
    fan-in tuple is uniform, and the total fan-in bound (when a maximum is
    given) or the equality of task counts (otherwise) holds. *)
Theorem can_fuse_multiple_decision (P : PrimitiveOperation)
    (preds : list PrimitiveOperation) (mt : option Z) :
  Forall (fun p => exists a, target_array p = TSingle a) preds ->
  let nib := num_input_blocks (config (pipeline P)) in
  exists peak b,
    peak_projected_mem preds = Some peak /\
    can_fuse_multiple_primitive_ops P preds mt = Some b /\
    (b = true <->
       is_fuse_candidate P = true /\
       Forall (fun p => is_fuse_candidate p = true) preds /\
       peak <= allowed_mem P /\
       (forall n m, In n nib -> In m nib -> n = m) /\
       match mt with
       | Some max_total =>
           sum_Z (map (fun x => fst x * sum_Z (num_input_blocks (config (pipeline (snd x)))))
                      (combine nib preds)) <= max_total
       | None => Forall (fun p => num_tasks P = num_tasks p) preds
       end).
Proof.
  intros Hs nib.
  destruct (peak_projected_mem_from_single modeller0 preds Hs) as [peak Hp].
  unfold can_fuse_multiple_primitive_ops, peak_projected_mem.
  rewrite Hp.
  destruct (is_fuse_candidate P && forallb is_fuse_candidate preds) eqn:Hc.
  - apply andb_true_iff in Hc as [HcP Hcs].
    destruct (peak >? allowed_mem P) eqn:Hm.
    + exists peak, false; split; [reflexivity|split; [reflexivity|split]]; [discriminate|].
      intros (_ & _ & Hle & _). rewrite Z.gtb_ltb, Z.ltb_lt in Hm; lia.
    + rewrite Z.gtb_ltb, Z.ltb_ge in Hm.
      fold nib.
      destruct (forallb (fun n => hd 0 nib =? n) nib) eqn:Hu; simpl.
      * pose proof (proj1 (uniform_forallb nib) Hu) as Hu2.
        pose proof (proj1 (forallb_Forall_true _ _) Hcs) as Hcs2.
        destruct mt as [max_total|].
        -- exists peak, (total_num_input_blocks nib preds <=? max_total).
           split; [reflexivity|split; [reflexivity|split]].
           ++ intro H. rewrite Z.leb_le, total_num_input_blocks_sum in H. tauto.
           ++ intros (_ & _ & _ & _ & H). apply Z.leb_le.
              rewrite total_num_input_blocks_sum; assumption.
        -- exists peak, (forallb (fun p => num_tasks P =? num_tasks p) preds).
           split; [reflexivity|split; [reflexivity|split]].
           ++ intro H. apply forallb_Forall_true in H.
              refine (conj HcP (conj Hcs2 (conj Hm (conj Hu2 _)))).
              eapply Forall_impl; [|exact H]. simpl; intros; lia.
           ++ intros (_ & _ & _ & _ & H). apply forallb_Forall_true.
              eapply Forall_impl; [|exact H]. simpl; intros; lia.
      * exists peak, false; split; [reflexivity|split; [reflexivity|split]]; [discriminate|].
        intros (_ & _ & _ & Hu' & _). apply (proj2 (uniform_forallb nib)) in Hu'. congruence.
  - exists peak, false; split; [reflexivity|split; [reflexivity|split]]; [discriminate|].
    intros (HcP & Hcs & _). apply forallb_Forall_true in Hcs.
    rewrite HcP, Hcs in Hc; discriminate.
Qed.

Lemma can_fuse_multiple_decision_witness :
  Forall (fun p => exists a, target_array p = TSingle a)
    [example_op "w" "x" (KSingle (fun l => hd_error l)) [1] (example_target "x") 100 1000 2] /\
  exists peak b,
    peak_projected_mem
      [example_op "w" "x" (KSingle (fun l => hd_error l)) [1] (example_target "x") 100 1000 2]
      = Some peak /\
    can_fuse_multiple_primitive_ops
      (example_op "x" "y" (KSingle (fun l => hd_error l)) [1] (example_target "y") 100 1000 2)
      [example_op "w" "x" (KSingle (fun l => hd_error l)) [1] (example_target "x") 100 1000 2]
      None = Some b.
Proof.
  assert (Hs : Forall (fun p => exists a, target_array p = TSingle a)
    [example_op "w" "x" (KSingle (fun l => hd_error l)) [1] (example_target "x") 100 1000 2])
    by (repeat constructor; eexists; reflexivity).
  split; [exact Hs|].
  destruct (can_fuse_multiple_decision
    (example_op "x" "y" (KSingle (fun l => hd_error l)) [1] (example_target "y") 100 1000 2)
    _ None Hs) as (peak & b & Hp & Hb & _).
  exists peak, b; split; assumption.
Defined.

(** C5 counterexample: a predecessor whose target is a list of arrays (an
    operation with several outputs) makes [peak_projected_mem] read
    [.dtype] of a list: the decision raises instead of returning false. *)
Lemma can_fuse_multiple_raises_on_multi_output_predecessor :
  can_fuse_multiple_primitive_ops
    (example_op "x" "y" (KSingle (fun l => hd_error l)) [1] (example_target "y") 100 1000 2)
    [example_op "w" "x" (KGen (fun l => Some l)) [1]
       (TMany [mkArrayRef "x" [2] 8 [1]; mkArrayRef "x2" [2] 8 [1]]) 100 1000 2]
    None = None.
Proof. reflexivity. Qed.

(* ------------------------------------------------------------------ *)
(** ** Pairwise fusion: fan-in *)

(** C6 (corrected): the fan-in of [fuse P1 P2] multiplies every entry of
    P1's tuple by the FIRST entry of P2's; it has P1's length, and it is the
    elementwise product where P2's tuple is uniform. *)
Theorem fuse_num_input_blocks_first_slot (P1 P2 : PrimitiveOperation) (counter : nat)
    (op : PrimitiveOperation) (counter' : nat) :
  fuse P1 P2 counter = Some (op, counter') ->
  let nib1 := num_input_blocks (config (pipeline P1)) in
  let nib2 := num_input_blocks (config (pipeline P2)) in
  let nib := num_input_blocks (config (pipeline op)) in
  nib = map (fun n => n * hd 0 nib2) nib1 /\
  List.length nib = List.length nib1 /\
  ((forall n, In n nib2 -> n = hd 0 nib2) ->
   forall i n1 n2, nth_error nib1 i = Some n1 -> nth_error nib2 i = Some n2 ->
     nth_error nib i = Some (n1 * n2)).
Proof.
  unfold fuse.
  destruct (negb (num_tasks P1 =? num_tasks P2)); [discriminate|].
  destruct (fuse_num_input_blocks _ _) as [nib|] eqn:Hn; [|discriminate].
  simpl; intro H; injection H as <- <-; cbv zeta; simpl.
  assert (Hnib : nib = map (fun n => n * hd 0 (num_input_blocks (config (pipeline P2))))
                         (num_input_blocks (config (pipeline P1)))).
  { unfold fuse_num_input_blocks in Hn.
    destruct (num_input_blocks (config (pipeline P1))) as [|x l];
      [injection Hn as <-; reflexivity|].
    destruct (num_input_blocks (config (pipeline P2))) as [|n0 l2]; [discriminate|].
    injection Hn as <-; reflexivity. }
  rewrite Hnib. split; [reflexivity|split; [apply length_map|]].
  intros Hu i n1 n2 H1 H2.
  rewrite nth_error_map, H1; simpl.
  rewrite <- (Hu n2) by (eapply nth_error_In; eassumption).
  reflexivity.
Qed.

Lemma fuse_num_input_blocks_first_slot_witness :
  exists op counter',
    fuse (example_op "x" "y" (KSingle (fun l => hd_error l)) [1; 1] (example_target "x") 100 1000 2)
         (example_op "x" "z" (KSingle (fun l => hd_error l)) [2] (example_target "z") 100 1000 2)
         0 = Some (op, counter') /\
    num_input_blocks (config (pipeline op)) = [2; 2].
Proof.
  destruct (fuse (example_op "x" "y" (KSingle (fun l => hd_error l)) [1; 1]
                    (example_target "x") 100 1000 2)
                 (example_op "x" "z" (KSingle (fun l => hd_error l)) [2]
                    (example_target "z") 100 1000 2) 0)
    as [[op c]|] eqn:E; [|discriminate].
  exists op, c; split; [reflexivity|].
  destruct (fuse_num_input_blocks_first_slot _ _ _ _ _ E) as [Hn _].
  rewrite Hn; reflexivity.
Defined.

(** C6 counterexample: fusing a producer with fan-in (1, 1) into a consumer
    with fan-in (2, 3) gives (2, 2), not the elementwise product (2, 3). *)
Lemma fuse_num_input_blocks_not_elementwise :
  exists op counter',
    fuse (example_op "x" "y" (KSingle (fun l => hd_error l)) [1; 1] (example_target "x") 100 1000 2)
         (example_op "x" "z" (KSingle (fun l => hd_error l)) [2; 3] (example_target "z") 100 1000 2)
         0 = Some (op, counter') /\
    nth_error (num_input_blocks (config (pipeline op))) 1 = Some 2 /\
    2 <> 1 * 3.
Proof.
  do 2 eexists; split; [reflexivity|]. split; [reflexivity|lia].
Qed.

(* ------------------------------------------------------------------ *)
(** ** The [fusable] flag *)

Lemma is_fuse_candidate_with_fusable (op : PrimitiveOperation) (b : bool) :
  is_fuse_candidate (with_fusable b op) = is_fuse_candidate op.
Proof. reflexivity. Qed.

Lemma forallb_same_but_fusable (f : PrimitiveOperation -> bool) preds preds' :
  (forall op b, f (with_fusable b op) = f op) ->
  Forall2 same_but_fusable preds preds' -> forallb f preds' = forallb f preds.
Proof.
  intros Hf H; induction H as [|p p' l l' [b ->] _ IH]; simpl; [reflexivity|].
  rewrite Hf, IH; reflexivity.
Qed.

Lemma peak_projected_mem_same_but_fusable m preds preds' :
  Forall2 same_but_fusable preds preds' ->
  peak_projected_mem_from m preds' = peak_projected_mem_from m preds.
Proof.
  intro H; revert m; induction H as [|p p' l l' [b ->] _ IH]; intro m; simpl;
    [reflexivity|].
  destruct (target_array p); [apply IH|reflexivity].
Qed.

Lemma total_num_input_blocks_same_but_fusable nib preds preds' :
  Forall2 same_but_fusable preds preds' ->
  total_num_input_blocks nib preds' = total_num_input_blocks nib preds.
Proof.
  unfold total_num_input_blocks; generalize 0 as acc.
  intros acc H; revert nib acc; induction H as [|p p' l l' [b ->] _ IH];
    intros [|ni nib] acc; simpl; try reflexivity.
  apply IH.
Qed.

(** C9: the fusion decisions never read [fusable] (operations differing only
    in that flag get the same answers), and [fuse] and [fuse_multiple] build
    operations with [fusable] set to true. *)
Theorem fusion_ignores_fusable_flag :
  (forall op b, is_fuse_candidate (with_fusable b op) = is_fuse_candidate op) /\
  (forall op1 op2 b1 b2,
     can_fuse_primitive_ops (with_fusable b1 op1) (with_fusable b2 op2)
     = can_fuse_primitive_ops op1 op2) /\
  (forall P P' preds preds' mt,
     same_but_fusable P P' -> Forall2 same_but_fusable preds preds' ->
     can_fuse_multiple_primitive_ops P' preds' mt
     = can_fuse_multiple_primitive_ops P preds mt) /\
  (forall op1 op2 counter r, fuse op1 op2 counter = Some r -> fusable (fst r) = true) /\
  (forall op preds counter r, fuse_multiple op preds counter = Some r ->
     fusable (fst r) = true).
Proof.
  split; [exact is_fuse_candidate_with_fusable|].
  split; [reflexivity|].
  split.
  - intros P P' preds preds' mt [b ->] H.
    unfold can_fuse_multiple_primitive_ops, peak_projected_mem.
    rewrite (forallb_same_but_fusable is_fuse_candidate _ _ is_fuse_candidate_with_fusable H).
    rewrite (peak_projected_mem_same_but_fusable _ _ _ H).
    rewrite (total_num_input_blocks_same_but_fusable _ _ _ H).
    rewrite (forallb_same_but_fusable
               (fun p => num_tasks (with_fusable b P) =? num_tasks p) _ _
               (fun op b => eq_refl) H).
    reflexivity.
  - split.
    + intros op1 op2 counter r. unfold fuse.
      destruct (negb _); [discriminate|].
      destruct (fuse_num_input_blocks _ _); [|discriminate].
      intro H; injection H as <-; reflexivity.
    + intros op preds counter r. unfold fuse_multiple.
      destruct (fused_multiple_num_input_blocks _ _); [|discriminate].
      destruct (fused_source_array_names _ _ _); [|discriminate].
      destruct (peak_projected_mem _); [|discriminate].
      intro H; injection H as <-; reflexivity.
Qed.

(* ------------------------------------------------------------------ *)
(** ** Index-notation lowering: number of block-function entries *)

















(* ------------------------------------------------------------------ *)
(** ** The Python executor: retries and task callbacks *)

Lemma tenacity_call_spec call a rem n r :
  tenacity_call call a rem = (n, r) ->
  (a <= n <= a + rem)%nat /\
  (forall i, (a <= i < n)%nat -> exists e, call i = Some e /\ is_Exception e = true) /\
  (r = None <-> call n = None) /\
  (forall e, r = Some (RetryError e) -> n = (a + rem)%nat /\ call n = Some e /\ is_Exception e = true) /\
  (forall e, r = Some (Reraised e) -> call n = Some e /\ is_Exception e = false).
Proof.
  revert a; induction rem as [|rem IH]; intro a; simpl;
    destruct (call a) as [e|] eqn:Hc.
  - destruct (is_Exception e) eqn:Hx; simpl; intro H; injection H as <- <-.
    + split; [lia|]. split; [intros i Hi; lia|].
      split; [split; [discriminate|congruence]|].
      split; intros e' He'; [|discriminate].
      injection He' as <-. split; [lia|]. auto.
    + split; [lia|]. split; [intros i Hi; lia|].
      split; [split; [discriminate|congruence]|].
      split; intros e' He'; [discriminate|].
      injection He' as <-. auto.
  - intro H; injection H as <- <-.
    split; [lia|]. split; [intros i Hi; lia|]. split; [split; auto|].
    split; intros e' He'; discriminate.
  - destruct (is_Exception e) eqn:Hx; simpl; intro H.
    + destruct (IH (S a) H) as (Hb & Hpre & Hnone & Hretry & Hre).
      split; [lia|]. split.
      * intros i Hi. destruct (Nat.eq_dec i a) as [->|Hne]; [eauto|]. apply Hpre; lia.
      * split; [exact Hnone|]. split; [|exact Hre].
        intros e' He'. destruct (Hretry e' He') as (Hn & Hc' & Hx').
        split; [lia|]. auto.
    + injection H as <- <-.
      split; [lia|]. split; [intros i Hi; lia|].
      split; [split; [discriminate|congruence]|].
      split; intros e' He'; [discriminate|].
      injection He' as <-. auto.
  - intro H; injection H as <- <-.
    split; [lia|]. split; [intros i Hi; lia|]. split; [split; auto|].
    split; intros e' He'; discriminate.
Qed.

Lemma exec_step_refl tc st : exec_inv tc st -> exec_step tc st st None.
Proof.
  intro H; split; [exact H|]. exists []; split; [rewrite app_nil_r; reflexivity|constructor].
Qed.

Lemma exec_step_trans tc st st1 st2 r :
  exec_step tc st st1 None -> exec_step tc st1 st2 r -> exec_step tc st st2 r.
Proof.
  intros [_ (new1 & E1 & F1)] [I2 (new2 & E2 & F2)].
  split; [exact I2|]. exists (new1 ++ new2). split; [rewrite E2, E1, app_assoc; reflexivity|].
  destruct r as [err|].
  - destruct F2 as (pre & m & n & -> & Fp).
    exists (new1 ++ pre), m, n. split; [rewrite app_assoc; reflexivity|].
    apply Forall_app; split; assumption.
  - apply Forall_app; split; assumption.
Qed.

Lemma count_success_app ts1 ts2 :
  count_success (ts1 ++ ts2) = (count_success ts1 + count_success ts2)%nat.
Proof. unfold count_success. rewrite filter_app, length_app; reflexivity. Qed.

Lemma run_one_step call m tc st st' r :
  exec_inv tc st -> run_one call m tc st = (st', r) -> exec_step tc st st' r.
Proof.
  intros [Hc Hf]. unfold run_one, exec_stage_func.
  destruct (tenacity_call call 1 (stop_after_attempt - 1)) as [n r0] eqn:E.
  destruct (tenacity_call_spec _ _ _ _ _ E) as (Hb & _).
  assert (Hbound : attempts_in_bound (m, n, r0)) by (simpl in *; unfold stop_after_attempt; lia).
  destruct r0 as [err|]; intro H; injection H as <- <-.
  - split.
    + split; simpl.
      * rewrite Hc, count_success_app.
        replace (count_success [(m, n, Some err)]) with 0%nat by reflexivity.
        destruct tc; lia.
      * apply Forall_app; split; [exact Hf|constructor; [exact Hbound|constructor]].
    + exists [(m, n, Some err)]. split; [reflexivity|].
      exists [], m, n. split; [reflexivity|constructor].
  - split.
    + split; simpl.
      * rewrite Hc, count_success_app.
        replace (count_success [(m, n, None)]) with 1%nat by reflexivity.
        destruct tc; lia.
      * apply Forall_app; split; [exact Hf|constructor; [exact Hbound|constructor]].
    + exists [(m, n, None)]. split; [reflexivity|]. repeat constructor.
Qed.

Lemma run_mappable_step stage ms tc st st' r :
  exec_inv tc st -> run_mappable stage ms tc st = (st', r) -> exec_step tc st st' r.
Proof.
  revert st; induction ms as [|m ms IH]; intros st Hi; simpl.
  - intro H; injection H as <- <-; apply exec_step_refl; exact Hi.
  - destruct (run_one (stage_call stage (Some m)) (Some m) tc st) as [st1 r1] eqn:E1.
    pose proof (run_one_step _ _ _ _ _ _ Hi E1) as S1.
    destruct r1 as [err|].
    + intro H; injection H as <- <-; exact S1.
    + intro H. apply (exec_step_trans _ _ _ _ _ S1). apply (IH st1 (proj1 S1) H).
Qed.

Lemma run_stage_step stage tc st st' r :
  exec_inv tc st -> run_stage stage tc st = (st', r) -> exec_step tc st st' r.
Proof.
  unfold run_stage; destruct (stage_mappable stage) as [ms|]; intros Hi H.
  - exact (run_mappable_step _ _ _ _ _ _ Hi H).
  - exact (run_one_step _ _ _ _ _ _ Hi H).
Qed.

Lemma run_stages_step stages tc st st' r :
  exec_inv tc st -> run_stages stages tc st = (st', r) -> exec_step tc st st' r.
Proof.
  revert st; induction stages as [|stage stages IH]; intros st Hi; simpl.
  - intro H; injection H as <- <-; apply exec_step_refl; exact Hi.
  - destruct (run_stage stage tc st) as [st1 r1] eqn:E1.
    pose proof (run_stage_step _ _ _ _ _ Hi E1) as S1.
    destruct r1 as [err|].
    + intro H; injection H as <- <-; exact S1.
    + intro H. apply (exec_step_trans _ _ _ _ _ S1). apply (IH st1 (proj1 S1) H).
Qed.

Lemma run_nodes_step nodes tc st st' r :
  exec_inv tc st -> run_nodes nodes tc st = (st', r) -> exec_step tc st st' r.
Proof.
  revert st; induction nodes as [|[stages|] nodes IH]; intros st Hi; simpl.
  - intro H; injection H as <- <-; apply exec_step_refl; exact Hi.
  - destruct (run_stages stages tc st) as [st1 r1] eqn:E1.
    pose proof (run_stages_step _ _ _ _ _ Hi E1) as S1.
    destruct r1 as [err|].
    + intro H; injection H as <- <-; exact S1.
    + intro H. apply (exec_step_trans _ _ _ _ _ S1). apply (IH st1 (proj1 S1) H).
  - apply IH; exact Hi.
Qed.

(** C10: [exec_stage_func] attempts the stage function between one and three
    times: every attempt before the last raised an [Exception], it stops at
    the first attempt that returns, an exception not derived from [Exception]
    propagates at once, and three [Exception] failures propagate as
    tenacity's [RetryError] wrapping the last one.  Over a whole DAG, the
    callback is incremented once per task that returned, every task is
    attempted at most three times, and the first error that propagates ends
    the execution: it belongs to the last task run. *)
Theorem python_executor_retry_and_callbacks :
  (forall call n r,
     exec_stage_func call = (n, r) ->
     (1 <= n <= 3)%nat /\
     (forall i, (1 <= i < n)%nat -> exists e, call i = Some e /\ is_Exception e = true) /\
     (r = None <-> call n = None) /\
     (forall e, r = Some (RetryError e) -> n = 3%nat /\ call 3%nat = Some e /\ is_Exception e = true) /\
     (forall e, r = Some (Reraised e) -> call n = Some e /\ is_Exception e = false)) /\
  (forall nodes task_callback st r,
     execute_dag nodes task_callback = (st, r) ->
     callbacks st = (if task_callback then count_success (executed st) else 0%nat)%nat /\
     Forall attempts_in_bound (executed st) /\
     match r with
     | None => Forall (fun t => task_succeeded t = true) (executed st)
     | Some err =>
         exists pre m n, executed st = pre ++ [(m, n, Some err)] /\
           Forall (fun t => task_succeeded t = true) pre
     end).
Proof.
  split.
  - intros call n r E. unfold exec_stage_func in E.
    destruct (tenacity_call_spec _ _ _ _ _ E) as (Hb & Hpre & Hnone & Hretry & Hre).
    split; [unfold stop_after_attempt in Hb; lia|]. split; [exact Hpre|].
    split; [exact Hnone|]. split; [|exact Hre].
    intros e He. destruct (Hretry e He) as (Hn & Hc & Hx). unfold stop_after_attempt in Hn.
    simpl in Hn. subst n. auto.
  - intros nodes tc st r E. unfold execute_dag in E.
    assert (H0 : exec_inv tc (mkExecState [] 0)) by (split; [destruct tc; reflexivity|constructor]).
    destruct (run_nodes_step _ _ _ _ _ H0 E) as [[Hc Hf] (new & Hnew & Hr)].
    simpl in Hnew. subst new.
    split; [exact Hc|]. split; [exact Hf|]. exact Hr.
Qed.

(** C10 (as stated): after three failed attempts the exception does not
    propagate as such, tenacity's [RetryError] does; and a failure by an
    exception outside [Exception] is not retried. *)
Lemma exec_stage_func_raises_retry_error :
  exec_stage_func (always_raises (mkPyExn 7 true)) = (3%nat, Some (RetryError (mkPyExn 7 true))) /\
  snd (exec_stage_func (always_raises (mkPyExn 7 true))) <> Some (Reraised (mkPyExn 7 true)) /\
  exec_stage_func (always_raises (mkPyExn 8 false)) = (1%nat, Some (Reraised (mkPyExn 8 false))).
Proof.
  split; [reflexivity|]. split; [simpl; discriminate|reflexivity].
Qed.

(* ------------------------------------------------------------------ *)
(** ** Pairwise fusion against running the two operations *)

Lemma store_set_eq s arr k v : store_set s arr k v arr k = v.
Proof.
  unfold store_set. rewrite String.eqb_refl. destruct (list_eq_dec Z.eq_dec k k); congruence.
Qed.

Lemma store_set_other_array s arr k v a k' : a <> arr -> store_set s arr k v a k' = s a k'.
Proof.
  intro H; unfold store_set. destruct (String.eqb_spec a arr); [contradiction|reflexivity].
Qed.

Lemma store_set_other_key s arr k v a k' : k <> k' -> store_set s arr k v a k' = s a k'.
Proof.
  intro H; unfold store_set. destruct (String.eqb a arr); [|reflexivity].
  destruct (list_eq_dec Z.eq_dec k k'); [contradiction|reflexivity].
Qed.

Lemma map_nested_get_chunk_ext reads (st s : store) :
  (forall name arr k, dict_lookup reads name = Some arr -> st arr k = s arr k) ->
  forall a, map_nested_get_chunk reads st a = map_nested_get_chunk reads s a.
Proof.
  intro Hag. fix IH 1. intros [ci|xs].
  - simpl. unfold get_chunk.
    destruct (dict_lookup reads (fst ci)) as [arr|] eqn:E; [|reflexivity].
    rewrite (Hag _ _ _ E); reflexivity.
  - simpl. f_equal. revert xs. fix IHl 1. intros [|x xs]; [reflexivity|].
    rewrite (IH x), (IHl xs). reflexivity.
Qed.

Lemma traverse_option_ext {A B} (f g : A -> option B) l :
  (forall x, f x = g x) -> traverse_option f l = traverse_option g l.
Proof.
  intro H; induction l as [|x l IH]; simpl; [reflexivity|]. rewrite H, IH; reflexivity.
Qed.

Lemma task_value_ext cfg (st s : store) k :
  (forall name arr k', dict_lookup (reads_map cfg) name = Some arr -> st arr k' = s arr k') ->
  task_value cfg st k = task_value cfg s k.
Proof.
  intro H; unfold task_value. destruct (block_function cfg ("out"%string, k)); [|reflexivity].
  rewrite (traverse_option_ext _ _ _ (map_nested_get_chunk_ext _ _ _ H)). reflexivity.
Qed.

Lemma write_result_not_dict s arr k v :
  is_dict v = false -> write_result s arr k v = Some (store_set s arr k v).
Proof. destruct v; simpl; try discriminate; reflexivity. Qed.

Lemma apply_blockwise_single m cfg f tgt st :
  function cfg = KSingle f -> writes_list cfg = [tgt] ->
  apply_blockwise m cfg st
  = match task_value cfg st (pyseq_items m) with
    | Some v => write_result st tgt (pyseq_items m) v
    | None => None
    end.
Proof.
  intros Hf Hw. unfold apply_blockwise, task_value, key, chunk_ind; cbv zeta.
  destruct (block_function cfg ("out"%string, pyseq_items m)); [|reflexivity].
  destruct (traverse_option _ _); [|reflexivity].
  rewrite Hf; simpl. destruct (f l0) as [v|]; simpl; [|reflexivity].
  rewrite Hw; simpl. destruct (write_result st tgt (pyseq_items m) v); reflexivity.
Qed.

Lemma task_value_kernel cfg f s k v :
  function cfg = KSingle f -> task_value cfg s k = Some v -> exists args, f args = Some v.
Proof.
  intro Hf. unfold task_value. rewrite Hf.
  destruct (block_function cfg ("out"%string, k)); [|discriminate].
  destruct (traverse_option _ _) as [args|]; [|discriminate]. eauto.
Qed.

Lemma run_producer cfg f tP (s : store) ms : forall st done st',
  function cfg = KSingle f -> writes_list cfg = [tP] ->
  (forall args v, f args = Some v -> is_dict v = false) ->
  (forall name arr, dict_lookup (reads_map cfg) name = Some arr -> arr <> tP) ->
  (forall arr k, arr <> tP -> st arr k = s arr k) ->
  (forall k, In k done -> task_value cfg s k = Some (st tP k)) ->
  run_tasks cfg ms st = Some st' ->
  (forall arr k, arr <> tP -> st' arr k = s arr k) /\
  (forall k, In k (done ++ map pyseq_items ms) -> task_value cfg s k = Some (st' tP k)).
Proof.
  induction ms as [|m ms IH]; intros st done st' Hf Hw Hnd Hr Hst Hdone; simpl.
  - intro H; injection H as <-. rewrite app_nil_r. split; assumption.
  - rewrite (apply_blockwise_single m cfg f tP st Hf Hw).
    rewrite (task_value_ext cfg st s).
    2: { intros name arr k' E. apply Hst. exact (Hr _ _ E). }
    destruct (task_value cfg s (pyseq_items m)) as [v|] eqn:Ev; [|discriminate].
    destruct (task_value_kernel cfg f s _ v Hf Ev) as [args Hv].
    rewrite (write_result_not_dict _ _ _ v (Hnd args v Hv)).
    intro H.
    destruct (IH (store_set st tP (pyseq_items m) v) (done ++ [pyseq_items m]) st'
                Hf Hw Hnd Hr) as [H1 H2].
    + intros arr k Ha. rewrite store_set_other_array by exact Ha. apply Hst; exact Ha.
    + intros k Hk. apply in_app_or in Hk as [Hk|[<-|[]]].
      * destruct (list_eq_dec Z.eq_dec (pyseq_items m) k) as [<-|Hne].
        -- rewrite store_set_eq; exact Ev.
        -- rewrite store_set_other_key by exact Hne. apply Hdone; exact Hk.
      * rewrite store_set_eq; exact Ev.
    + exact H.
    + split; [exact H1|]. intros k Hk. apply H2. rewrite <- app_assoc; exact Hk.
Qed.

Lemma fuse_some P Q c F c' :
  fuse P Q c = Some (F, c') ->
  mappable (pipeline F) = mappable (pipeline Q) /\
  block_function (config (pipeline F))
    = fused_blockwise_func (block_function (config (pipeline P)))
        (block_function (config (pipeline Q))) /\
  function (config (pipeline F))
    = fused_func (function (config (pipeline P))) (function (config (pipeline Q))) /\
  reads_map (config (pipeline F)) = reads_map (config (pipeline P)) /\
  writes_list (config (pipeline F)) = writes_list (config (pipeline Q)).
Proof.
  unfold fuse. destruct (negb _); [discriminate|].
  destruct (fuse_num_input_blocks _ _); [|discriminate].
  simpl. intro H; injection H as <- _. simpl. repeat split.
Qed.

Lemma run_consumer_and_fused cfgP cfgQ cfgF f1 f2 tP tQ mP (s s1 : store) ms :
  forall sa sb sa',
  function cfgP = KSingle f1 -> function cfgQ = KSingle f2 ->
  writes_list cfgQ = [tQ] -> tP <> tQ ->
  block_function cfgF = fused_blockwise_func (block_function cfgP) (block_function cfgQ) ->
  function cfgF = fused_func (KSingle f1) (KSingle f2) ->
  reads_map cfgF = reads_map cfgP -> writes_list cfgF = [tQ] ->
  (forall name arr, dict_lookup (reads_map cfgP) name = Some arr -> arr <> tP /\ arr <> tQ) ->
  (forall n n' k, block_function cfgP (n, k) = block_function cfgP (n', k)) ->
  (forall arr k, arr <> tP -> s1 arr k = s arr k) ->
  (forall k, In k (map pyseq_items mP) -> task_value cfgP s k = Some (s1 tP k)) ->
  (forall m, In m ms -> exists nq kq,
      block_function cfgQ ("out"%string, pyseq_items m) = Some [Leaf (nq, kq)] /\
      dict_lookup (reads_map cfgQ) nq = Some tP /\
      exists m', In m' mP /\ pyseq_items m' = kq) ->
  fusion_rel s s1 tP tQ sa sb ->
  run_tasks cfgQ ms sa = Some sa' ->
  exists sb', run_tasks cfgF ms sb = Some sb' /\ fusion_rel s s1 tP tQ sa' sb'.
Proof.
  induction ms as [|m ms IH];
    intros sa sb sa' Hf1 Hf2 HwQ HPQ Hbf Hff Hrd HwF Hr Hname Hs1 Hval Hms HR; simpl.
  - intro H; injection H as <-. exists sb; split; [reflexivity|exact HR].
  - destruct (Hms m (or_introl eq_refl)) as (nq & kq & Hb & Hl & m' & Hm' & Hk).
    destruct HR as (Hoff & HaP & HbP & HaQ).
    rewrite (apply_blockwise_single m cfgQ f2 tQ sa Hf2 HwQ).
    rewrite (apply_blockwise_single m cfgF _ tQ sb Hff HwF).
    (* the consumer reads the producer's block at [kq] *)
    assert (HQv : task_value cfgQ sa (pyseq_items m) = f2 [s1 tP kq]).
    { unfold task_value. rewrite Hb. simpl. unfold get_chunk. simpl. rewrite Hl, HaP, Hf2.
      reflexivity. }
    (* the fused task recomputes that block from the producer's inputs *)
    assert (HFv : task_value cfgF sb (pyseq_items m) = f2 [s1 tP kq]).
    { assert (Hin : In kq (map pyseq_items mP)) by (rewrite <- Hk; apply in_map; exact Hm').
      pose proof (Hval kq Hin) as HP.
      rewrite (task_value_ext cfgP s sb) in HP.
      2: { intros name arr k' E. destruct (Hr _ _ E) as [HnP HnQ].
           rewrite <- (Hs1 arr k' HnP), <- (HaQ arr k' HnQ). apply Hoff; exact HnP. }
      unfold task_value in HP |- *. unfold chunk_ind, key in *. rewrite Hbf, Hrd, Hff.
      unfold fused_blockwise_func. rewrite Hb, (Hname nq "out"%string kq).
      destruct (block_function cfgP ("out"%string, kq)); [|discriminate].
      destruct (traverse_option _ _); [|discriminate].
      rewrite Hf1 in HP. simpl. rewrite HP. reflexivity. }
    rewrite HQv, HFv. destruct (f2 [s1 tP kq]) as [w|]; [|discriminate].
    unfold write_result.
    replace (sb tQ (pyseq_items m)) with (sa tQ (pyseq_items m))
      by (apply Hoff; intro E; apply HPQ; symmetry; exact E).
    destruct (write_block (sa tQ (pyseq_items m)) w) as [w'|]; simpl; [|discriminate].
    intro H. apply (IH (store_set sa tQ (pyseq_items m) w')
                    (store_set sb tQ (pyseq_items m) w') sa'); try assumption.
    + intros m0 Hm0. apply Hms; right; exact Hm0.
    + split; [|split; [|split]].
      * intros arr k Ha. destruct (String.eqb_spec arr tQ) as [->|HnQ].
        -- destruct (list_eq_dec Z.eq_dec (pyseq_items m) k) as [<-|Hne].
           ++ rewrite !store_set_eq; reflexivity.
           ++ rewrite !store_set_other_key by exact Hne. apply Hoff; exact Ha.
        -- rewrite !store_set_other_array by exact HnQ. apply Hoff; exact Ha.
      * intro k. rewrite store_set_other_array by exact HPQ. apply HaP.
      * intro k. rewrite store_set_other_array by exact HPQ. apply HbP.
      * intros arr k Ha. rewrite store_set_other_array by exact Ha. apply HaQ; exact Ha.
Qed.

(** C1: fusing a producer [P] (one output [tP], plain kernel [f1] that never
    returns a dict) into a consumer [Q] (one output [tQ], plain kernel [f2])
    whose every task reads a single block of [tP] that [P] computes: if
    running [P] over its keys and then [Q] over its keys succeeds, the fused
    operation over its keys succeeds from the same store and leaves every
    array but [tP] as the sequential run does, while [tP] is never written.
    [P]'s reads must avoid [tP] and [tQ], and [P]'s block function must
    ignore the name in its key. *)
Theorem fuse_refines_producer_then_consumer P Q F c c' tP tQ f1 f2 s s1 s2 :
  fuse P Q c = Some (F, c') ->
  function (config (pipeline P)) = KSingle f1 ->
  (forall args v, f1 args = Some v -> is_dict v = false) ->
  function (config (pipeline Q)) = KSingle f2 ->
  writes_list (config (pipeline P)) = [tP] ->
  writes_list (config (pipeline Q)) = [tQ] ->
  tP <> tQ ->
  (forall name arr, dict_lookup (reads_map (config (pipeline P))) name = Some arr ->
     arr <> tP /\ arr <> tQ) ->
  (forall n n' k, block_function (config (pipeline P)) (n, k)
                  = block_function (config (pipeline P)) (n', k)) ->
  (forall m, In m (mappable (pipeline Q)) -> exists nq kq,
      block_function (config (pipeline Q)) ("out"%string, pyseq_items m) = Some [Leaf (nq, kq)] /\
      dict_lookup (reads_map (config (pipeline Q))) nq = Some tP /\
      exists m', In m' (mappable (pipeline P)) /\ pyseq_items m' = kq) ->
  execute_op P s = Some s1 ->
  execute_op Q s1 = Some s2 ->
  exists s3, execute_op F s = Some s3 /\
    (forall arr k, arr <> tP -> s3 arr k = s2 arr k) /\
    (forall k, s3 tP k = s tP k).
Proof.
  intros HF Hf1 Hnd Hf2 HwP HwQ HPQ Hr Hname Hms HP HQ.
  destruct (fuse_some _ _ _ _ _ HF) as (Hmap & Hbf & Hff & Hrd & HwF).
  rewrite Hf1, Hf2 in Hff. rewrite HwQ in HwF.
  unfold execute_op in HP, HQ |- *.
  destruct (run_producer _ _ _ s _ s [] s1 Hf1 HwP Hnd
              (fun name arr E => proj1 (Hr name arr E)) (fun _ _ _ => eq_refl)
              (fun k (H : In k []) => match H with end) HP) as [Hs1 Hval].
  simpl in Hval.
  destruct (run_consumer_and_fused _ _ _ f1 f2 tP tQ (mappable (pipeline P)) s s1
              (mappable (pipeline Q)) s1 s s2 Hf1 Hf2 HwQ HPQ Hbf Hff Hrd HwF Hr Hname Hs1
              Hval Hms) as (s3 & Hrun & Hoff & _ & HbP & _).
  - split; [|split; [|split]]; intros; try reflexivity.
    + apply Hs1; assumption.
  - exact HQ.
  - exists s3. rewrite Hmap. split; [exact Hrun|]. split.
    + intros arr k Ha. symmetry; apply Hoff; exact Ha.
    + exact HbP.
Qed.

Lemma fuse_refines_producer_then_consumer_witness :
  exists F c' s3,
    fuse producer_op consumer_op 0 = Some (F, c') /\
    execute_op F store_fives = Some s3 /\
    s3 "t2"%string [0] = VBlock [12] /\
    s3 "t1"%string [0] = VBlock [5].
Proof.
  assert (Hnd : forall args v, add_one args = Some v -> is_dict v = false).
  { intros args v H. unfold add_one in H.
    destruct args as [|a [|]]; try discriminate; destruct a as [bl| | |]; try discriminate;
      destruct bl as [|z [|]]; try discriminate; injection H as <-; reflexivity. }
  destruct (fuse producer_op consumer_op 0) as [[F c']|] eqn:EF;
    [|vm_compute in EF; discriminate].
  destruct (execute_op producer_op store_fives) as [s1|] eqn:E1;
    [|vm_compute in E1; discriminate].
  destruct (execute_op consumer_op s1) as [s2|] eqn:E2.
  2: { vm_compute in E1. injection E1 as <-. vm_compute in E2. discriminate. }
  destruct (fuse_refines_producer_then_consumer producer_op consumer_op F 0 c'
              "t1"%string "t2"%string add_one double store_fives s1 s2 EF eq_refl Hnd eq_refl
              eq_refl eq_refl ltac:(discriminate)
              ltac:(intros name arr H; simpl in H;
                    destruct (String.eqb name "in_0");
                    [injection H as <-; split; discriminate|discriminate])
              ltac:(intros; reflexivity)
              ltac:(intros m [<-|[]]; exists "in_0"%string, [0]; split; [reflexivity|];
                    split; [reflexivity|]; exists (PyList [0]); split; [left|]; reflexivity)
              E1 E2) as (s3 & Hrun & Hoff & HtP).
  exists F, c', s3. split; [reflexivity|]. split; [exact Hrun|]. split.
  - rewrite (Hoff "t2"%string [0] ltac:(discriminate)).
    vm_compute in E1. injection E1 as <-. vm_compute in E2. injection E2 as <-.
    reflexivity.
  - rewrite HtP. reflexivity.
Defined.

(** C1 (as stated): running the consumer before the producer is not what the
    fused operation computes: from blocks holding 5, fusing [x -> t1] (add
    one) into [t1 -> t2] (double) writes 12 to [t2], while running the
    consumer and then the producer writes 10. *)
Lemma fuse_differs_from_consumer_then_producer :
  exists F c' sq sqp s3,
    fuse producer_op consumer_op 0 = Some (F, c') /\
    execute_op consumer_op store_fives = Some sq /\
    execute_op producer_op sq = Some sqp /\
    execute_op F store_fives = Some s3 /\
    s3 "t2"%string [0] = VBlock [12] /\
    sqp "t2"%string [0] = VBlock [10].
Proof.
  do 5 eexists. split; [reflexivity|]. split; [reflexivity|]. split; [reflexivity|].
  split; [reflexivity|]. split; vm_compute; reflexivity.
Qed.

Lemma python_executor_retry_and_callbacks_witness :
  exec_stage_func (always_raises (mkPyExn 7 true)) = (3%nat, Some (RetryError (mkPyExn 7 true))) /\
  (3%nat = 3%nat /\ always_raises (mkPyExn 7 true) 3%nat = Some (mkPyExn 7 true) /\
   is_Exception (mkPyExn 7 true) = true).
Proof.
  split; [reflexivity|].
  exact (proj1 (proj2 (proj2 (proj2
           (proj1 python_executor_retry_and_callbacks (always_raises (mkPyExn 7 true)) 3%nat
              (Some (RetryError (mkPyExn 7 true))) eq_refl))))
           (mkPyExn 7 true) eq_refl).
Defined.

(* ================================================================== *)
(** * Further properties of the code *)

(* ------------------------------------------------------------------ *)
(** ** [general_blockwise]: edge cases and task keys *)

Lemma NoDup_flat_map_disjoint {A B} (g : A -> list B) (l : list A) :
  NoDup l -> (forall x, NoDup (g x)) ->
  (forall x y b, In b (g x) -> In b (g y) -> x = y) ->
  NoDup (flat_map g l).
Proof.
  intros Hl Hg Hdis; induction Hl as [|x l Hx Hl IH]; simpl; [constructor|].
  apply NoDup_app; [apply Hg|exact IH|].
  intros b Hb Hb'. apply in_flat_map in Hb' as (y & Hy & Hb'').
  rewrite (Hdis x y b Hb Hb'') in Hx. contradiction.
Qed.

Lemma NoDup_map_cons (z : Z) (l : list (list Z)) : NoDup l -> NoDup (map (cons z) l).
Proof.
  induction 1 as [|x l Hx Hl IH]; simpl; constructor; [|exact IH].
  intro H; apply in_map_iff in H as (y & Hy & Hin). injection Hy as ->. contradiction.
Qed.

Lemma NoDup_product_ranges ns : NoDup (product_ranges ns).
Proof.
  induction ns as [|n ns IH]; simpl.
  - constructor; [intros []|constructor].
  - apply NoDup_flat_map_disjoint; [apply seq_NoDup| intro x; apply NoDup_map_cons; exact IH|].
    intros x y b Hx Hy.
    apply in_map_iff in Hx as (t & <- & _). apply in_map_iff in Hy as (t' & Ht' & _).
    injection Ht' as Hxy _. lia.
Qed.

(** The task keys of an operation built by [general_blockwise] are pairwise
    distinct: each output block is computed by exactly one task. *)
Theorem general_blockwise_task_keys_distinct func bf arrays allowed reserved outs in_names
    extra fusable0 nib counter op counter' :
  general_blockwise func bf arrays allowed reserved outs in_names extra fusable0 nib counter
    = inl (op, counter') ->
  NoDup (map pyseq_items (mappable (pipeline op))).
Proof.
  intro H. destruct (general_blockwise_inl _ _ _ _ _ _ _ _ _ _ _ _ _ H)
    as (_ & cn & _ & _ & _ & _ & _ & Hm & _).
  rewrite Hm, !map_map. simpl. rewrite map_id. apply NoDup_product_ranges.
Qed.

Lemma general_blockwise_task_keys_distinct_witness :
  exists op counter',
    general_blockwise (KGen (fun l => Some l)) (fun k => Some [Leaf ("in_0"%string, snd k)])
      [mkArrayRef "a" [4] 8 [2]] 1000 0 [mkOutSpec "o" 8 [[2; 2]; [2]]] None 0 true None 0
      = inl (op, counter') /\
    List.length (mappable (pipeline op)) = 2%nat /\
    NoDup (map pyseq_items (mappable (pipeline op))).
Proof.
  destruct (general_blockwise (KGen (fun l => Some l))
              (fun k => Some [Leaf ("in_0"%string, snd k)])
              [mkArrayRef "a" [4] 8 [2]] 1000 0 [mkOutSpec "o" 8 [[2; 2]; [2]]] None 0 true
              None 0) as [[op c]|e] eqn:E; [|vm_compute in E; discriminate].
  exists op, c. split; [reflexivity|]. split.
  - vm_compute in E. injection E as <- _. reflexivity.
  - exact (general_blockwise_task_keys_distinct _ _ _ _ _ _ _ _ _ _ _ op c E).
Defined.

(** Raising [allowed_mem] never makes [general_blockwise] fail: a call that
    succeeds still succeeds with a larger budget, with the same operation
    apart from its [allowed_mem]. *)
Theorem general_blockwise_allowed_mem_monotonic func bf arrays allowed allowed' reserved outs
    in_names extra fusable0 nib counter op counter' :
  general_blockwise func bf arrays allowed reserved outs in_names extra fusable0 nib counter
    = inl (op, counter') ->
  allowed <= allowed' ->
  general_blockwise func bf arrays allowed' reserved outs in_names extra fusable0 nib counter
    = inl (with_allowed_mem allowed' op, counter').
Proof.
  unfold general_blockwise.
  destruct (blockwise_projected_mem reserved extra arrays outs >? allowed) eqn:Hm;
    [discriminate|].
  intros H Ha.
  assert (Hm' : (blockwise_projected_mem reserved extra arrays outs >? allowed') = false).
  { rewrite Z.gtb_ltb in *. apply Z.ltb_ge in Hm. apply Z.ltb_ge. lia. }
  rewrite Hm'. destruct (last_chunks_normal outs); [|discriminate].
  injection H as <- <-. reflexivity.
Qed.

Lemma general_blockwise_allowed_mem_monotonic_witness :
  exists op counter',
    general_blockwise (KGen (fun l => Some l)) (fun k => Some [Leaf ("in_0"%string, snd k)])
      [mkArrayRef "a" [4] 8 [2]] 64 0 [mkOutSpec "o" 8 [[2; 2]]] None 0 true None 0
      = inl (op, counter') /\
    general_blockwise (KGen (fun l => Some l)) (fun k => Some [Leaf ("in_0"%string, snd k)])
      [mkArrayRef "a" [4] 8 [2]] 100 0 [mkOutSpec "o" 8 [[2; 2]]] None 0 true None 0
      = inl (with_allowed_mem 100 op, counter').
Proof.
  destruct (general_blockwise (KGen (fun l => Some l))
              (fun k => Some [Leaf ("in_0"%string, snd k)])
              [mkArrayRef "a" [4] 8 [2]] 64 0 [mkOutSpec "o" 8 [[2; 2]]] None 0 true
              None 0) as [[op c]|e] eqn:E; [|vm_compute in E; discriminate].
  exists op, c. split; [reflexivity|].
  exact (general_blockwise_allowed_mem_monotonic _ _ _ 64 100 _ _ _ _ _ _ _ op c E
           ltac:(lia)).
Defined.

(* ------------------------------------------------------------------ *)
(** ** [apply_blockwise]: what a task writes *)

Lemma skipn_nth_error {A} (l : list A) i a :
  nth_error l i = Some a -> skipn i l = a :: skipn (S i) l.
Proof.
  revert i; induction l as [|x l IH]; intros [|i] H; simpl in *; try discriminate.
  - injection H as ->; reflexivity.
  - apply IH; exact H.
Qed.

Lemma in_firstn_in {A} n (l : list A) x : In x (firstn n l) -> In x l.
Proof.
  revert n; induction l as [|y l IH]; intros [|n] H; simpl in *; try contradiction.
  destruct H as [->|H]; [left; reflexivity|right; exact (IH n H)].
Qed.

Lemma write_result_frame s a k r s1 :
  write_result s a k r = Some s1 ->
  forall arr k', (arr <> a \/ k' <> k) -> s1 arr k' = s arr k'.
Proof.
  unfold write_result. destruct (write_block (s a k) r) as [b|]; simpl; [|discriminate].
  intros H arr k' Hn; injection H as <-. destruct Hn as [Hn|Hn].
  - apply store_set_other_array; exact Hn.
  - apply store_set_other_key. intro E; apply Hn; symmetry; exact E.
Qed.

Lemma write_results_frame writes k results : forall i s s',
  write_results writes k i results s = Some s' ->
  forall arr k',
    (~ In arr (firstn (List.length results) (skipn i writes)) \/ k' <> k) ->
    s' arr k' = s arr k'.
Proof.
  induction results as [|r rest IH]; intros i s s' H arr k' Hn; simpl in H.
  - injection H as <-; reflexivity.
  - destruct (nth_error writes i) as [a|] eqn:Ha; [|discriminate].
    destruct (write_result s a k r) as [s1|] eqn:Hw; [|discriminate].
    rewrite (IH (S i) _ _ H arr k').
    + apply (write_result_frame _ _ _ _ _ Hw). destruct Hn as [Hn|Hn]; [left|right; exact Hn].
      rewrite (skipn_nth_error _ _ _ Ha) in Hn. simpl in Hn.
      intro E; apply Hn; left; symmetry; exact E.
    + destruct Hn as [Hn|Hn]; [left|right; exact Hn].
      rewrite (skipn_nth_error _ _ _ Ha) in Hn. simpl in Hn. tauto.
Qed.

Lemma write_results_none writes k results : forall i s,
  Forall (fun r => is_dict r = false) results ->
  write_results writes k i results s = None <->
  (results <> [] /\ List.length writes < i + List.length results)%nat.
Proof.
  induction results as [|r rest IH]; intros i s Hnd; simpl.
  - split; [discriminate|intros [H _]; contradiction].
  - inversion Hnd as [|? ? Hr Hrest]; subst.
    destruct (nth_error writes i) as [a|] eqn:Ha.
    + rewrite (write_result_not_dict _ _ _ _ Hr), IH by exact Hrest.
      assert (i < List.length writes)%nat
        by (apply nth_error_Some; rewrite Ha; discriminate).
      destruct rest; simpl; split; intros [H1 H2]; split; try discriminate; try lia.
    + apply nth_error_None in Ha. split; [intros _; split; [discriminate|lia]|reflexivity].
Qed.

Lemma write_results_values writes k results : forall i s s',
  Forall (fun r => is_dict r = false) results ->
  NoDup (skipn i writes) ->
  write_results writes k i results s = Some s' ->
  forall j arr r, nth_error writes (i + j) = Some arr -> nth_error results j = Some r ->
  s' arr k = r.
Proof.
  induction results as [|r0 rest IH]; intros i s s' Hd Hnd H j arr r Harr Hr.
  - destruct j; discriminate.
  - inversion Hd as [|? ? Hr0 Hrest]; subst.
    simpl in H. destruct (nth_error writes i) as [a|] eqn:Ha; [|discriminate].
    rewrite (write_result_not_dict _ _ _ _ Hr0) in H.
    pose proof (skipn_nth_error _ _ _ Ha) as Hsk. rewrite Hsk in Hnd.
    inversion Hnd as [|? ? Hnin Hnd']; subst.
    destruct j as [|j].
    + rewrite Nat.add_0_r, Ha in Harr. injection Harr as <-. simpl in Hr. injection Hr as <-.
      rewrite (write_results_frame _ _ _ _ _ _ H a k).
      * apply store_set_eq.
      * left. intro Hin. apply Hnin. exact (in_firstn_in _ _ _ Hin).
    + apply (IH (S i) _ _ Hrest Hnd' H j); [rewrite <- Harr; f_equal; lia|exact Hr].
Qed.

Lemma apply_blockwise_results m cfg s names args results :
  block_function cfg ("out"%string, pyseq_items m) = Some names ->
  traverse_option (map_nested_get_chunk (reads_map cfg) s) names = Some args ->
  run_kernel (function cfg) args = Some results ->
  apply_blockwise m cfg s = write_results (writes_list cfg) (pyseq_items m) 0 results s.
Proof.
  intros Hb Ht Hk. unfold apply_blockwise; cbv zeta. rewrite Hb, Ht, Hk. reflexivity.
Qed.

(** A task of [apply_blockwise] whose kernel returns [results], none of them
    a dict, fails ([IndexError]) exactly when there are more results than
    outputs in [writes_list].  When it succeeds, the [j]-th result is the
    block of the [j]-th output at the task's key (outputs being distinct
    arrays), and no block is written but those of the first [len(results)]
    outputs at that key. *)
Theorem apply_blockwise_writes_results m cfg s names args results :
  block_function cfg ("out"%string, pyseq_items m) = Some names ->
  traverse_option (map_nested_get_chunk (reads_map cfg) s) names = Some args ->
  run_kernel (function cfg) args = Some results ->
  Forall (fun r => is_dict r = false) results ->
  (apply_blockwise m cfg s = None <->
     (List.length (writes_list cfg) < List.length results)%nat) /\
  (forall s', apply_blockwise m cfg s = Some s' ->
     (NoDup (writes_list cfg) ->
        forall j arr r, nth_error (writes_list cfg) j = Some arr ->
          nth_error results j = Some r -> s' arr (pyseq_items m) = r) /\
     (forall arr k,
        ~ (In arr (firstn (List.length results) (writes_list cfg)) /\ k = pyseq_items m) ->
        s' arr k = s arr k)).
Proof.
  intros Hb Ht Hk Hd.
  rewrite (apply_blockwise_results m cfg s names args results Hb Ht Hk). split.
  - rewrite write_results_none by exact Hd. simpl.
    split; [tauto|]. intro H; split; [|exact H]. intros ->; simpl in H; lia.
  - intros s' Hs. split.
    + intros Hnd j arr r Hj Hr.
      apply (write_results_values _ _ _ 0 s s' Hd Hnd Hs j); assumption.
    + intros arr k Hn. apply (write_results_frame _ _ _ 0 s s' Hs).
      destruct (list_eq_dec Z.eq_dec k (pyseq_items m)) as [->|Hne]; [|right; exact Hne].
      left. intro Hin; apply Hn; split; [exact Hin|reflexivity].
Qed.

Lemma apply_blockwise_writes_results_witness :
  exists s',
    apply_blockwise (PyList [0]) two_outputs_config store_fives = Some s' /\
    s' "z"%string [0] = VBlock [5] /\ s' "y"%string [1] = VBlock [5].
Proof.
  destruct (apply_blockwise (PyList [0]) two_outputs_config store_fives) as [s'|] eqn:E;
    [|vm_compute in E; discriminate].
  assert (Hd : Forall (fun r => is_dict r = false) [VBlock [5]; VBlock [5]])
    by (repeat constructor).
  destruct (apply_blockwise_writes_results (PyList [0]) two_outputs_config store_fives
              [Leaf ("in_0"%string, [0])] [VBlock [5]] [VBlock [5]; VBlock [5]]
              eq_refl eq_refl eq_refl Hd) as [_ Hw].
  destruct (Hw s' E) as [Hv Hf].
  exists s'. split; [reflexivity|]. split.
  - apply (Hv ltac:(repeat constructor; simpl; intuition discriminate) 1%nat);
      reflexivity.
  - apply Hf. intros [_ Hk]. discriminate.
Defined.

Lemma field_lookup_update_other fs f v g :
  g <> f ->
  field_lookup (map (fun '(f', v') => if String.eqb f f' then (f', v) else (f', v')) fs) g
  = field_lookup fs g.
Proof.
  intro Hg. induction fs as [|[f' v'] fs IH]; simpl; [reflexivity|].
  destruct (String.eqb_spec f f') as [<-|Hne]; simpl.
  - destruct (String.eqb_spec g f) as [E|_]; [contradiction|exact IH].
  - destruct (String.eqb g f'); [reflexivity|exact IH].
Qed.

Lemma field_lookup_update_same fs f v :
  In f (map fst fs) ->
  field_lookup (map (fun '(f', v') => if String.eqb f f' then (f', v) else (f', v')) fs) f
  = Some v.
Proof.
  induction fs as [|[f' v'] fs IH]; simpl; [intros []|]. intro Hin.
  destruct (String.eqb_spec f f') as [<-|Hne]; simpl.
  - rewrite String.eqb_refl. reflexivity.
  - destruct (String.eqb_spec f f') as [E|_]; [contradiction|].
    destruct Hin as [E|Hin]; [symmetry in E; contradiction|exact (IH Hin)].
Qed.

Lemma field_lookup_update fs f v g :
  In f (map fst fs) ->
  field_lookup (map (fun '(f', v') => if String.eqb f f' then (f', v) else (f', v')) fs) g
  = if String.eqb g f then Some v else field_lookup fs g.
Proof.
  intro Hin. destruct (String.eqb_spec g f) as [->|Hg].
  - apply field_lookup_update_same; exact Hin.
  - apply field_lookup_update_other; exact Hg.
Qed.

Lemma map_fst_update (fs : list (string * Val)) f v :
  map fst (map (fun '(f', v') => if String.eqb f f' then (f', v) else (f', v')) fs) = map fst fs.
Proof.
  induction fs as [|[f' v'] fs IH]; simpl; [reflexivity|].
  rewrite IH. destruct (String.eqb f f'); reflexivity.
Qed.

Lemma existsb_eqb_in f l : existsb (String.eqb f) l = true <-> In f l.
Proof.
  rewrite existsb_exists. split.
  - intros (x & Hx & E). apply String.eqb_eq in E; subst; exact Hx.
  - intro H; exists f; split; [exact H|apply String.eqb_refl].
Qed.

Lemma field_lookup_app l f v g :
  field_lookup (l ++ [(f, v)]) g
  = match field_lookup l g with Some x => Some x | None => if String.eqb g f then Some v else None end.
Proof.
  induction l as [|[f' v'] l IH]; simpl; [destruct (String.eqb g f); reflexivity|].
  destruct (String.eqb g f'); [reflexivity|exact IH].
Qed.

Lemma set_fields_none fs items :
  set_fields (VStruct fs) items = None <-> ~ incl (map fst items) (map fst fs).
Proof.
  revert fs; induction items as [|[f v] items IH]; intro fs; simpl.
  - split; [discriminate|]. intro H; exfalso; apply H; intros x [].
  - destruct (existsb (String.eqb f) (map fst fs)) eqn:E.
    + rewrite IH, map_fst_update. apply existsb_eqb_in in E.
      split; intros H Hi; apply H.
      * intros x Hx; apply Hi; right; exact Hx.
      * intros x [<-|Hx]; [exact E|apply Hi; exact Hx].
    + split; [|reflexivity]. intros _ Hi.
      assert (Hf : In f (map fst fs)) by (apply Hi; left; reflexivity).
      apply existsb_eqb_in in Hf. congruence.
Qed.

Lemma set_fields_some fs items blk :
  set_fields (VStruct fs) items = Some blk ->
  exists fs', blk = VStruct fs' /\ map fst fs' = map fst fs /\
    forall g, field_lookup fs' g =
      match field_lookup (rev items) g with Some v => Some v | None => field_lookup fs g end.
Proof.
  revert fs; induction items as [|[f v] items IH]; intros fs H; simpl in H.
  - injection H as <-. exists fs. split; [reflexivity|]. split; [reflexivity|]. reflexivity.
  - destruct (existsb (String.eqb f) (map fst fs)) eqn:E; [|discriminate].
    apply existsb_eqb_in in E.
    destruct (IH _ H) as (fs' & -> & Hn & Hl).
    exists fs'. split; [reflexivity|]. split; [rewrite Hn; apply map_fst_update|].
    intro g. rewrite Hl, field_lookup_update by exact E. simpl. rewrite field_lookup_app.
    destruct (field_lookup (rev items) g); [reflexivity|].
    destruct (String.eqb g f); reflexivity.
Qed.

(** A kernel returning a dict for a structured output writes it field by
    field: the task fails exactly when the dict names a field the target
    block does not have; otherwise each field named in the dict takes the
    dict's value, every other field of the block keeps its contents, and no
    other block is written. *)
Theorem apply_blockwise_dict_result m cfg s names args items arr rest fs :
  block_function cfg ("out"%string, pyseq_items m) = Some names ->
  traverse_option (map_nested_get_chunk (reads_map cfg) s) names = Some args ->
  run_kernel (function cfg) args = Some [VDict items] ->
  writes_list cfg = arr :: rest ->
  s arr (pyseq_items m) = VStruct fs ->
  (apply_blockwise m cfg s = None <-> ~ incl (map fst items) (map fst fs)) /\
  (forall s', apply_blockwise m cfg s = Some s' ->
     (exists fs', s' arr (pyseq_items m) = VStruct fs' /\ map fst fs' = map fst fs /\
        forall g, field_lookup fs' g =
          match field_lookup (rev items) g with Some v => Some v | None => field_lookup fs g end) /\
     (forall a k, (a <> arr \/ k <> pyseq_items m) -> s' a k = s a k)).
Proof.
  intros Hb Ht Hk Hw Hs.
  rewrite (apply_blockwise_results m cfg s names args _ Hb Ht Hk), Hw. simpl.
  unfold write_result, write_block. rewrite Hs.
  split.
  - rewrite <- set_fields_none.
    destruct (set_fields (VStruct fs) items); simpl; split; congruence.
  - intros s' H.
    destruct (set_fields (VStruct fs) items) as [blk|] eqn:E; simpl in H; [|discriminate].
    injection H as <-. split.
    + destruct (set_fields_some _ _ _ E) as (fs' & -> & Hn & Hl).
      exists fs'. split; [apply store_set_eq|]. split; assumption.
    + intros a k [Ha|Hk']; [apply store_set_other_array; exact Ha|].
      apply store_set_other_key. intro E'; apply Hk'; symmetry; exact E'.
Qed.

Lemma apply_blockwise_dict_result_witness :
  exists s', apply_blockwise (PyList [0]) dict_config struct_store = Some s' /\
    field_lookup (match s' "p"%string [0] with VStruct fs => fs | _ => [] end) "a"
      = Some (VBlock [1]) /\
    field_lookup (match s' "p"%string [0] with VStruct fs => fs | _ => [] end) "b"
      = Some (VBlock [7]).
Proof.
  destruct (apply_blockwise (PyList [0]) dict_config struct_store) as [s'|] eqn:E;
    [|vm_compute in E; discriminate].
  destruct (apply_blockwise_dict_result (PyList [0]) dict_config struct_store
              [Leaf ("in_0"%string, [0])] [VBlock [5]] [("b"%string, VBlock [7])] "p"%string []
              [("a"%string, VBlock [1]); ("b"%string, VBlock [2])]
              eq_refl eq_refl eq_refl eq_refl eq_refl) as [_ Hs].
  destruct (Hs s' E) as [(fs' & Hp & _ & Hl) _].
  simpl in Hp. exists s'. split; [reflexivity|]. rewrite Hp, !Hl. split; reflexivity.
Defined.





Lemma apply_blockwise_frame m cfg s s' :
  apply_blockwise m cfg s = Some s' ->
  forall arr k, (~ In arr (writes_list cfg) \/ k <> pyseq_items m) -> s' arr k = s arr k.
Proof.
  unfold apply_blockwise; cbv zeta.
  destruct (block_function cfg ("out"%string, pyseq_items m)); [|discriminate].
  destruct (traverse_option _ _); [|discriminate].
  destruct (run_kernel _ _) as [results|]; [|discriminate].
  intros H arr k Hn. apply (write_results_frame _ _ _ 0 s s' H).
  destruct Hn as [Hn|Hn]; [left|right; exact Hn].
  intro Hin; apply Hn. exact (in_firstn_in _ _ _ Hin).
Qed.

(** Running an operation's tasks only writes blocks of its [writes_list]
    arrays at its task keys: every other array, and every other key, keeps
    its contents. *)
Theorem execute_op_frame op s s' :
  execute_op op s = Some s' ->
  forall arr k,
    (~ In arr (writes_list (config (pipeline op))) \/
     ~ In k (map pyseq_items (mappable (pipeline op)))) ->
    s' arr k = s arr k.
Proof.
  unfold execute_op. set (cfg := config (pipeline op)). revert s s'.
  induction (mappable (pipeline op)) as [|m ms IH]; intros s s' H arr k Hn; simpl in H.
  - injection H as <-; reflexivity.
  - destruct (apply_blockwise m cfg s) as [s1|] eqn:E; [|discriminate].
    rewrite (IH s1 s' H arr k).
    + apply (apply_blockwise_frame _ _ _ _ E).
      destruct Hn as [Hn|Hn]; [left; exact Hn|right].
      intro Ek; apply Hn; left; symmetry; exact Ek.
    + destruct Hn as [Hn|Hn]; [left; exact Hn|right]. intro Hin; apply Hn; right; exact Hin.
Qed.

Lemma execute_op_frame_witness :
  exists s',
    execute_op producer_op store_fives = Some s' /\
    s' "x"%string [0] = store_fives "x"%string [0] /\
    s' "t1"%string [1] = store_fives "t1"%string [1].
Proof.
  destruct (execute_op producer_op store_fives) as [s'|] eqn:E;
    [|vm_compute in E; discriminate].
  exists s'. split; [reflexivity|]. split.
  - apply (execute_op_frame _ _ _ E). left. simpl. intuition discriminate.
  - apply (execute_op_frame _ _ _ E). right. simpl. intuition discriminate.
Defined.

(* ------------------------------------------------------------------ *)
(** ** Pairwise fusion: decisions, results and chains *)

Lemma fuse_spec a b n :
  fuse a b n =
  if negb (num_tasks a =? num_tasks b) then None
  else option_map (fun nib => (fused_pair_op a b nib n, S n))
         (fuse_num_input_blocks (num_input_blocks (config (pipeline a)))
            (num_input_blocks (config (pipeline b)))).
Proof.
  unfold fuse. destruct (negb _); [reflexivity|].
  destruct (fuse_num_input_blocks _ _); reflexivity.
Qed.

(** When [can_fuse_primitive_ops] accepts a pair, [fuse] passes its
    [num_tasks] assertion and builds an operation (given that the second
    operation has a fan-in when the first has inputs).  The result is again
    a fuse candidate with the second operation's [num_tasks], and later
    fusion decisions treat it exactly as the second operation. *)
Theorem can_fuse_then_fuse op1 op2 counter :
  can_fuse_primitive_ops op1 op2 = true ->
  (num_input_blocks (config (pipeline op1)) = [] \/
   num_input_blocks (config (pipeline op2)) <> []) ->
  exists op counter',
    fuse op1 op2 counter = Some (op, counter') /\
    is_fuse_candidate op = true /\
    num_tasks op = num_tasks op2 /\
    (forall op3, can_fuse_primitive_ops op op3 = can_fuse_primitive_ops op2 op3 /\
                 can_fuse_primitive_ops op3 op = can_fuse_primitive_ops op3 op2).
Proof.
  intros Hc Hn. unfold can_fuse_primitive_ops in Hc.
  destruct (is_fuse_candidate op1 && is_fuse_candidate op2) eqn:Hcand; [|discriminate].
  apply andb_true_iff in Hcand as [_ H2].
  rewrite fuse_spec, Hc. simpl.
  assert (Hnib : exists nib, fuse_num_input_blocks (num_input_blocks (config (pipeline op1)))
                              (num_input_blocks (config (pipeline op2))) = Some nib).
  { unfold fuse_num_input_blocks.
    destruct (num_input_blocks (config (pipeline op1))); [eauto|].
    destruct (num_input_blocks (config (pipeline op2))) as [|n0 ?]; [|eauto].
    destruct Hn as [Hn|Hn]; [discriminate|contradiction]. }
  destruct Hnib as [nib Hnib]. rewrite Hnib. simpl.
  do 2 eexists. split; [reflexivity|]. split; [reflexivity|]. split; [reflexivity|].
  intro op3. unfold can_fuse_primitive_ops, is_fuse_candidate in *. simpl.
  rewrite H2. split; reflexivity.
Qed.

Lemma can_fuse_then_fuse_witness :
  can_fuse_primitive_ops producer_op consumer_op = true /\
  exists op counter', fuse producer_op consumer_op 0 = Some (op, counter') /\
    is_fuse_candidate op = true.
Proof.
  split; [reflexivity|].
  assert (H1 : can_fuse_primitive_ops producer_op consumer_op = true) by reflexivity.
  assert (H2 : num_input_blocks (config (pipeline consumer_op)) <> []) by discriminate.
  destruct (can_fuse_then_fuse producer_op consumer_op 0 H1 (or_intror H2))
    as (op & c & E & Hc & _).
  exists op, c. split; [exact E|exact Hc].
Defined.

Lemma fused_blockwise_func_assoc bf1 bf2 bf3 k :
  fused_blockwise_func (fused_blockwise_func bf1 bf2) bf3 k
  = fused_blockwise_func bf1 (fused_blockwise_func bf2 bf3) k.
Proof.
  unfold fused_blockwise_func.
  destruct (bf3 k) as [[|[a|xs] [|y ys]]|]; reflexivity.
Qed.

Lemma fused_func_assoc k1 k2 k3 args :
  run_kernel (fused_func (fused_func k1 k2) k3) args
  = run_kernel (fused_func k1 (fused_func k2 k3)) args.
Proof.
  unfold fused_func, run_kernel.
  destruct k1 as [f1|f1], k2 as [f2|f2], k3 as [f3|f3]; try reflexivity;
    destruct (f1 args) as [v|]; try reflexivity.
  all: destruct (f2 [v]); reflexivity.
Qed.

(** Fusing a chain of three operations does not depend on the order of the
    pairwise fusions: when [fuse(fuse(a, b), c)] succeeds (and [a] has
    inputs), [fuse(a, fuse(b, c))] succeeds too and builds the same
    operation up to its name. *)
Theorem fuse_assoc a b c n0 ab n1 abc n2 m0 :
  num_input_blocks (config (pipeline a)) <> [] ->
  fuse a b n0 = Some (ab, n1) ->
  fuse ab c n1 = Some (abc, n2) ->
  exists bc m1 abc' m2,
    fuse b c m0 = Some (bc, m1) /\ fuse a bc m1 = Some (abc', m2) /\
    same_op_but_name abc abc'.
Proof.
  intros Ha H1 H2. rewrite fuse_spec in H1, H2.
  destruct (num_tasks a =? num_tasks b) eqn:Tab; [|discriminate]. simpl in H1.
  destruct (fuse_num_input_blocks (num_input_blocks (config (pipeline a)))
              (num_input_blocks (config (pipeline b)))) as [nab|] eqn:Nab; [|discriminate].
  simpl in H1. injection H1 as <- <-.
  destruct (num_tasks (fused_pair_op a b nab n0) =? num_tasks c) eqn:Tabc; [|discriminate].
  simpl in H2.
  destruct (fuse_num_input_blocks nab (num_input_blocks (config (pipeline c))))
    as [nabc|] eqn:Nabc; [|discriminate].
  simpl in H2. injection H2 as <- <-.
  simpl in Tabc, Nabc.
  unfold fuse_num_input_blocks in Nab, Nabc.
  destruct (num_input_blocks (config (pipeline a))) as [|x xs] eqn:NA; [contradiction|].
  destruct (num_input_blocks (config (pipeline b))) as [|b0 bs] eqn:NB; [discriminate|].
  injection Nab as <-. simpl in Nabc.
  destruct (num_input_blocks (config (pipeline c))) as [|c0 cs] eqn:NC; [discriminate|].
  injection Nabc as <-.
  set (nbc := map (fun n => n * c0) (b0 :: bs)).
  assert (Ebc : fuse b c m0 = Some (fused_pair_op b c nbc m0, S m0)).
  { rewrite fuse_spec, Tabc. simpl.
    unfold fuse_num_input_blocks. rewrite NB, NC. reflexivity. }
  set (nabc' := map (fun n => n * (b0 * c0)) (x :: xs)).
  assert (Eabc : fuse a (fused_pair_op b c nbc m0) (S m0)
                 = Some (fused_pair_op a (fused_pair_op b c nbc m0) nabc' (S m0), S (S m0))).
  { rewrite fuse_spec. simpl. apply Z.eqb_eq in Tab, Tabc.
    rewrite Tab, Tabc, Z.eqb_refl. simpl.
    unfold fuse_num_input_blocks. rewrite NA. reflexivity. }
  do 4 eexists. split; [exact Ebc|]. split; [exact Eabc|].
  unfold same_op_but_name; simpl.
  split; [reflexivity|]. split; [reflexivity|].
  split; [intro k; apply fused_blockwise_func_assoc|].
  split; [intro args; apply fused_func_assoc|].
  split; [reflexivity|]. split.
  { unfold nabc'. simpl. f_equal; [lia|]. rewrite map_map. apply map_ext. intro; lia. }
  split; [reflexivity|]. split; [reflexivity|]. split; [reflexivity|].
  split; [reflexivity|]. split; [lia|]. repeat split.
Qed.

Lemma fuse_assoc_witness :
  exists bc m1 abc' m2,
    fuse consumer_op (example_op "t2" "t3" add_one_kernel [1] (example_target "t3") 100 1000 1)
      5 = Some (bc, m1) /\
    fuse producer_op bc m1 = Some (abc', m2).
Proof.
  set (c := example_op "t2" "t3" add_one_kernel [1] (example_target "t3") 100 1000 1).
  destruct (fuse producer_op consumer_op 0) as [[ab n1]|] eqn:E1;
    [|vm_compute in E1; discriminate].
  destruct (fuse ab c n1) as [[abc n2]|] eqn:E2.
  2: { vm_compute in E1. injection E1 as <- <-. vm_compute in E2. discriminate. }
  assert (Ha : num_input_blocks (config (pipeline producer_op)) <> []) by discriminate.
  destruct (fuse_assoc producer_op consumer_op c 0 ab n1 abc n2 5 Ha E1 E2)
    as (bc & m1 & abc' & m2 & Hbc & Habc & _).
  exists bc, m1, abc', m2. split; assumption.
Defined.

(** Raising [max_total_num_input_blocks] never turns an accepted
    multi-way fusion into a rejected one. *)
Theorem can_fuse_multiple_max_total_monotonic P preds m m' :
  can_fuse_multiple_primitive_ops P preds (Some m) = Some true ->
  m <= m' ->
  can_fuse_multiple_primitive_ops P preds (Some m') = Some true.
Proof.
  unfold can_fuse_multiple_primitive_ops.
  destruct (_ && _); [|discriminate].
  destruct (peak_projected_mem preds); [|discriminate].
  destruct (_ >? _); [discriminate|].
  destruct (negb _); [discriminate|].
  intros H Hm. injection H as H. apply Z.leb_le in H. f_equal. apply Z.leb_le. lia.
Qed.

Lemma can_fuse_multiple_max_total_monotonic_witness :
  can_fuse_multiple_primitive_ops consumer_op [producer_op] (Some 1) = Some true /\
  can_fuse_multiple_primitive_ops consumer_op [producer_op] (Some 7) = Some true.
Proof.
  split; [reflexivity|].
  assert (H : can_fuse_multiple_primitive_ops consumer_op [producer_op] (Some 1) = Some true)
    by reflexivity.
  exact (can_fuse_multiple_max_total_monotonic consumer_op [producer_op] 1 7 H
           ltac:(lia)).
Defined.

(* ------------------------------------------------------------------ *)
(** ** Multi-way fusion: read maps and absent predecessors *)

Lemma dict_lookup_app d1 d2 k :
  dict_lookup (d1 ++ d2) k =
  match dict_lookup d2 k with Some v => Some v | None => dict_lookup d1 k end.
Proof.
  induction d1 as [|[k' v] d1 IH]; simpl.
  - destruct (dict_lookup d2 k); reflexivity.
  - rewrite IH. destruct (dict_lookup d2 k); reflexivity.
Qed.

Lemma somes_map_option_map {A B} (f : A -> B) l :
  somes (map (option_map f) l) = map f (somes l).
Proof. induction l as [|[x|] l IH]; simpl; try rewrite IH; reflexivity. Qed.

(** The read map of an operation built by [fuse_multiple] resolves an input
    name through the fused predecessors' read maps first (a later
    predecessor winning over an earlier one), and through the operation's
    own read map only for names no predecessor binds. *)
Theorem fuse_multiple_reads_map P preds counter F counter' name :
  fuse_multiple P preds counter = Some (F, counter') ->
  dict_lookup (reads_map (config (pipeline F))) name =
  match dict_lookup (List.concat (map (fun p => reads_map (config (pipeline p))) (somes preds)))
          name with
  | Some a => Some a
  | None => dict_lookup (reads_map (config (pipeline P))) name
  end.
Proof.
  unfold fuse_multiple. cbv zeta.
  destruct (fused_multiple_num_input_blocks _ _); [|discriminate].
  destruct (fused_source_array_names _ _ _); [|discriminate].
  destruct (peak_projected_mem _); [|discriminate].
  intro H. injection H as <- _. simpl.
  rewrite dict_lookup_app, somes_map_option_map, map_map. reflexivity.
Qed.

Lemma fuse_multiple_reads_map_witness :
  exists F counter', fuse_multiple shadow_P [Some shadow_Q] 0 = Some (F, counter') /\
    dict_lookup (reads_map (config (pipeline F))) "in_0" = Some "y"%string.
Proof.
  destruct (fuse_multiple shadow_P [Some shadow_Q] 0) as [[F c]|] eqn:E;
    [|vm_compute in E; discriminate].
  exists F, c. split; [reflexivity|].
  rewrite (fuse_multiple_reads_map shadow_P [Some shadow_Q] 0 F c "in_0" E).
  reflexivity.
Defined.

Lemma combine_repeat_none {A B} (ys : list B) :
  combine (repeat (@None A) (List.length ys)) ys = map (fun y => (None, y)) ys.
Proof. induction ys as [|y ys IH]; simpl; [reflexivity|]. rewrite IH; reflexivity. Qed.

Lemma traverse_combine_seq_none {A B C} (f : nat * (option A * B) -> option C) (g : B -> C) ys :
  forall s,
  (forall i y, (s <= i < s + List.length ys)%nat -> In y ys -> f (i, (None, y)) = Some (g y)) ->
  traverse_option f (combine (seq s (List.length ys)) (map (fun y => (None, y)) ys))
  = Some (map g ys).
Proof.
  induction ys as [|y ys IH]; intros s Hs; simpl; [reflexivity|].
  rewrite (Hs s y) by (simpl; auto; lia).
  rewrite IH; [reflexivity|].
  intros i y' Hi Hy. apply Hs; simpl; auto; lia.
Qed.

Lemma traverse_enumerate_zip_none {A B C} (f : nat * (option A * B) -> option C) (g : B -> C) ys :
  (forall i y, (i < List.length ys)%nat -> In y ys -> f (i, (None, y)) = Some (g y)) ->
  traverse_option f (enumerate_zip (repeat None (List.length ys)) ys) = Some (map g ys).
Proof.
  intro H. unfold enumerate_zip. rewrite combine_repeat_none, length_map.
  apply traverse_combine_seq_none. intros i y Hi Hy. apply H; [lia|exact Hy].
Qed.

Lemma split_into_singletons {A} (xs : list A) :
  split_into (List.concat (map (fun a => [a]) xs)) (repeat 1%nat (List.length xs))
  = map (fun a => [a]) xs.
Proof. induction xs as [|x xs IH]; simpl; [reflexivity|]. rewrite IH; reflexivity. Qed.

Lemma traverse_read_singletons reads s args :
  traverse_option (map_nested_get_chunk reads s) (map Nest (map (fun a => [a]) args))
  = option_map (map (fun v => VList [v])) (traverse_option (map_nested_get_chunk reads s) args).
Proof.
  induction args as [|a args IH]; simpl; [reflexivity|].
  rewrite IH. destruct (map_nested_get_chunk reads s a); simpl; [|reflexivity].
  destruct (traverse_option (map_nested_get_chunk reads s) args); reflexivity.
Qed.

Lemma traverse_option_length {A B} (f : A -> option B) l l' :
  traverse_option f l = Some l' -> List.length l' = List.length l.
Proof.
  revert l'; induction l as [|x l IH]; intros l' H; simpl in H.
  - injection H as <-; reflexivity.
  - destruct (f x); [|discriminate].
    destruct (traverse_option f l) eqn:E; [|discriminate].
    injection H as <-. simpl. f_equal. apply IH; reflexivity.
Qed.

Lemma fused_func_args_none p vs :
  (List.length vs <= List.length (num_input_blocks (config p)))%nat ->
  fused_func_args p (repeat None (List.length vs)) (map (fun v => VList [v]) vs) = Some vs.
Proof.
  intro Hl. unfold fused_func_args.
  replace (List.length vs) with (List.length (map (fun v => VList [v]) vs)) at 1
    by apply length_map.
  rewrite (traverse_enumerate_zip_none _
             (fun x => match x with VList (v :: _) => v | other => other end)).
  - rewrite map_map. simpl. rewrite map_id. reflexivity.
  - intros i y Hi Hy. rewrite length_map in Hi.
    apply in_map_iff in Hy as [v [<- _]].
    destruct (nth_error (num_input_blocks (config p)) i) eqn:N; [reflexivity|].
    apply nth_error_None in N. lia.
Qed.

Lemma apply_blockwise_fuse_multiple_none P n m s w nargs fnib :
  (n <= List.length (num_input_blocks (config (pipeline P))))%nat ->
  (forall args, block_function (config (pipeline P)) ("out"%string, pyseq_items m) = Some args ->
                List.length args = n) ->
  writes_list (config (pipeline P)) = w ->
  apply_blockwise m
    (mkBlockwiseSpec
       (fused_multiple_blockwise_func (pipeline P) (repeat None n) (repeat 1%nat n))
       (fused_multiple_func (pipeline P) (repeat None n)) nargs fnib
       (reads_map (config (pipeline P)) ++ []) w) s
  = apply_blockwise m (config (pipeline P)) s.
Proof.
  intros Hn Hb <-. unfold apply_blockwise. cbv zeta. simpl.
  unfold fused_multiple_blockwise_func.
  destruct (block_function (config (pipeline P)) ("out"%string, pyseq_items m)) as [args|] eqn:B;
    [|reflexivity].
  specialize (Hb args eq_refl). subst n.
  rewrite (traverse_enumerate_zip_none _ (fun a => [a])).
  2: { intros i y Hi _.
       destruct (nth_error (num_input_blocks (config (pipeline P))) i) eqn:N; [reflexivity|].
       apply nth_error_None in N. lia. }
  rewrite split_into_singletons, app_nil_r, map_map, <- (map_map (fun a => [a]) Nest),
    traverse_read_singletons.
  destruct (traverse_option (map_nested_get_chunk (reads_map (config (pipeline P))) s) args)
    as [vs|] eqn:T; simpl; [|reflexivity].
  apply traverse_option_length in T.
  assert (K : run_kernel (fused_multiple_func (pipeline P) (repeat None (List.length args)))
                (map (fun v => VList [v]) vs)
              = run_kernel (function (config (pipeline P))) vs).
  { rewrite <- T. unfold fused_multiple_func.
    destruct (function (config (pipeline P))); simpl;
      rewrite fused_func_args_none by lia; reflexivity. }
  rewrite K. reflexivity.
Qed.

Lemma run_tasks_ext c1 c2 ms s :
  (forall m s, In m ms -> apply_blockwise m c1 s = apply_blockwise m c2 s) ->
  run_tasks c1 ms s = run_tasks c2 ms s.
Proof.
  revert s; induction ms as [|m ms IH]; intros s H; simpl; [reflexivity|].
  rewrite H by (left; reflexivity).
  destruct (apply_blockwise m c2 s); [|reflexivity].
  apply IH. intros; apply H; right; assumption.
Qed.

Lemma fused_source_array_names_none names n :
  forall i, (i + n <= List.length names)%nat ->
  fused_source_array_names names i (repeat None n) = Some (firstn n (skipn i names)).
Proof.
  induction n as [|n IH]; intros i Hi; simpl; [reflexivity|].
  destruct (nth_error names i) as [x|] eqn:N.
  2: { apply nth_error_None in N. lia. }
  rewrite IH by lia. rewrite (skipn_nth_error names i x N). reflexivity.
Qed.

Lemma somes_repeat_none {A} n : somes (repeat (@None A) n) = [].
Proof. induction n; simpl; auto. Qed.

(** [fuse_multiple] with no predecessor to fuse ([None] in every slot)
    passes each argument through unchanged: when [P]'s block function gives
    one entry per slot, the fused operation reads the same source arrays,
    runs exactly like [P] on every store, and its projected memory is
    [max(P.projected_mem, 0)]. *)
Theorem fuse_multiple_no_predecessors P n counter :
  (n <= List.length (num_input_blocks (config (pipeline P))))%nat ->
  (n <= List.length (source_array_names P))%nat ->
  (forall m args, In m (mappable (pipeline P)) ->
     block_function (config (pipeline P)) ("out"%string, pyseq_items m) = Some args ->
     List.length args = n) ->
  exists F counter',
    fuse_multiple P (repeat None n) counter = Some (F, counter') /\
    source_array_names F = firstn n (source_array_names P) /\
    projected_mem F = Z.max (projected_mem P) 0 /\
    (forall s, execute_op F s = execute_op P s).
Proof.
  intros Hn Hs Hb. unfold fuse_multiple. cbv zeta.
  rewrite !map_repeat. simpl option_map.
  rewrite (fused_source_array_names_none _ n 0) by lia.
  rewrite !somes_repeat_none. simpl.
  assert (Hnib : exists fnib,
            fused_multiple_num_input_blocks (num_input_blocks (config (pipeline P))) (repeat None n)
            = Some fnib).
  { unfold fused_multiple_num_input_blocks. destruct n as [|n']; simpl; [eauto|].
    destruct (num_input_blocks (config (pipeline P))); simpl in Hn; [lia|eauto]. }
  destruct Hnib as [fnib ->].
  do 2 eexists. split; [reflexivity|]. simpl.
  split; [reflexivity|]. split; [reflexivity|].
  intro s. unfold execute_op. simpl. apply run_tasks_ext.
  intros m s' Hm. apply apply_blockwise_fuse_multiple_none; [exact Hn| |reflexivity].
  intros args; apply Hb; exact Hm.
Qed.

Lemma fuse_multiple_no_predecessors_witness :
  exists F counter' s',
    fuse_multiple sum_op [None; None] 0 = Some (F, counter') /\
    source_array_names F = ["x"%string; "y"%string] /\
    execute_op F xy_store = Some s' /\
    s' "z"%string [0] = VBlock [7] /\ s' "z"%string [1] = VBlock [17].
Proof.
  assert (Hb : forall m args, In m (mappable (pipeline sum_op)) ->
     block_function (config (pipeline sum_op)) ("out"%string, pyseq_items m) = Some args ->
     List.length args = 2%nat).
  { intros m args _ H. simpl in H. injection H as <-. reflexivity. }
  assert (H1 : (2 <= List.length (num_input_blocks (config (pipeline sum_op))))%nat)
    by (simpl; lia).
  assert (H2 : (2 <= List.length (source_array_names sum_op))%nat) by (simpl; lia).
  destruct (fuse_multiple_no_predecessors sum_op 2 0 H1 H2 Hb) as (F & c & E & Hn & _ & Hx).
  destruct (execute_op sum_op xy_store) as [s'|] eqn:Ep; [|vm_compute in Ep; discriminate].
  exists F, c, s'. split; [exact E|]. split; [exact Hn|]. split; [rewrite Hx; exact Ep|].
  vm_compute in Ep. injection Ep as <-. split; reflexivity.
Defined.

(* ------------------------------------------------------------------ *)
(** ** The Python executor when no task fails *)

Lemma exec_ok_trans tc st1 st2 st3 k1 k2 :
  exec_ok tc st1 st2 k1 -> exec_ok tc st2 st3 k2 -> exec_ok tc st1 st3 (k1 ++ k2).
Proof.
  intros [E1 C1] [E2 C2]. split.
  - rewrite E2, E1, app_assoc. reflexivity.
  - rewrite C2, C1, length_app. destruct tc; lia.
Qed.

Lemma exec_ok_refl tc st : exec_ok tc st st [].
Proof. split; [rewrite app_nil_r; reflexivity|destruct tc; simpl; lia]. Qed.

Lemma run_one_ok call m tc st :
  snd (exec_stage_func call) = None ->
  exists st', run_one call m tc st = (st', None) /\ exec_ok tc st st' [m].
Proof.
  unfold run_one. destruct (exec_stage_func call) as [n r]. simpl. intros ->.
  eexists. split; [reflexivity|]. split; simpl.
  - rewrite map_app. reflexivity.
  - destruct tc; lia.
Qed.

Lemma run_mappable_ok stage ms tc :
  (forall m, In m ms -> snd (exec_stage_func (stage_call stage (Some m))) = None) ->
  forall st, exists st', run_mappable stage ms tc st = (st', None) /\
                        exec_ok tc st st' (map Some ms).
Proof.
  induction ms as [|m ms IH]; intros H st; simpl.
  - exists st. split; [reflexivity|apply exec_ok_refl].
  - destruct (run_one_ok (stage_call stage (Some m)) (Some m) tc st (H m (or_introl eq_refl)))
      as [st1 [-> O1]].
    destruct (IH (fun m' Hm => H m' (or_intror Hm)) st1) as [st2 [-> O2]].
    exists st2. split; [reflexivity|]. exact (exec_ok_trans _ _ _ _ [Some m] _ O1 O2).
Qed.

Lemma run_stage_ok stage tc st :
  (forall m, In m (stage_task_keys stage) -> snd (exec_stage_func (stage_call stage m)) = None) ->
  exists st', run_stage stage tc st = (st', None) /\ exec_ok tc st st' (stage_task_keys stage).
Proof.
  unfold run_stage, stage_task_keys. destruct (stage_mappable stage) as [ms|]; intro H.
  - apply run_mappable_ok. intros m Hm. apply H. apply in_map; exact Hm.
  - apply run_one_ok. apply H. left; reflexivity.
Qed.

Lemma run_stages_ok stages tc :
  (forall stage m, In stage stages -> In m (stage_task_keys stage) ->
     snd (exec_stage_func (stage_call stage m)) = None) ->
  forall st, exists st', run_stages stages tc st = (st', None) /\
                        exec_ok tc st st' (flat_map stage_task_keys stages).
Proof.
  induction stages as [|stage stages IH]; intros H st; simpl.
  - exists st. split; [reflexivity|apply exec_ok_refl].
  - destruct (run_stage_ok stage tc st (fun m => H stage m (or_introl eq_refl))) as [st1 [-> O1]].
    destruct (IH (fun s' m Hs => H s' m (or_intror Hs)) st1) as [st2 [-> O2]].
    exists st2. split; [reflexivity|]. exact (exec_ok_trans _ _ _ _ _ _ O1 O2).
Qed.

Lemma run_nodes_ok nodes tc :
  (forall stages stage m, In (Some stages) nodes -> In stage stages ->
     In m (stage_task_keys stage) -> snd (exec_stage_func (stage_call stage m)) = None) ->
  forall st, exists st', run_nodes nodes tc st = (st', None) /\
                        exec_ok tc st st' (dag_task_keys nodes).
Proof.
  induction nodes as [|[stages|] nodes IH]; intros H st; simpl.
  - exists st. split; [reflexivity|apply exec_ok_refl].
  - destruct (run_stages_ok stages tc (fun s' m => H stages s' m (or_introl eq_refl)) st) as [st1 [-> O1]].
    destruct (IH (fun ss s' m Hs => H ss s' m (or_intror Hs)) st1) as [st2 [-> O2]].
    exists st2. split; [reflexivity|]. exact (exec_ok_trans _ _ _ _ _ _ O1 O2).
  - apply IH. intros ss s' m Hs. apply H. right; exact Hs.
Qed.

(** When no task raises (every task's [exec_stage_func] returns),
    [execute_dag] runs every task of every stage exactly once, node by node
    in reverse topological order, stage by stage and key by key, finishes
    without an error, and calls the callback (when one is given) once per
    task. *)
Theorem execute_dag_runs_every_task nodes task_callback st r :
  (forall stages stage m, In (Some stages) nodes -> In stage stages ->
     In m (stage_task_keys stage) -> snd (exec_stage_func (stage_call stage m)) = None) ->
  execute_dag nodes task_callback = (st, r) ->
  r = None /\
  map task_key (executed st) = dag_task_keys (rev nodes) /\
  callbacks st = (if task_callback then List.length (executed st) else 0)%nat.
Proof.
  intros H E. unfold execute_dag in E.
  assert (H' : forall stages stage m, In (Some stages) (rev nodes) -> In stage stages ->
     In m (stage_task_keys stage) -> snd (exec_stage_func (stage_call stage m)) = None).
  { intros ss s' m Hs. apply H. apply in_rev; exact Hs. }
  destruct (run_nodes_ok (rev nodes) task_callback H' (mkExecState [] 0)) as [st' [E' [K C]]].
  rewrite E' in E. injection E as <- <-.
  simpl in K, C. split; [reflexivity|]. split; [exact K|].
  rewrite C. rewrite <- (length_map task_key (executed st')), K. reflexivity.
Qed.

Lemma execute_dag_runs_every_task_witness :
  map task_key (executed (fst (execute_dag all_ok_nodes true)))
  = [None; Some 0%nat; Some 1%nat].
Proof.
  assert (H : forall stages stage m, In (Some stages) all_ok_nodes -> In stage stages ->
     In m (stage_task_keys stage) -> snd (exec_stage_func (stage_call stage m)) = None).
  { intros ss s' m Hn Hs _. simpl in Hn.
    destruct Hn as [Hn|[Hn|[Hn|[]]]]; try discriminate; injection Hn as <-;
      destruct Hs as [<-|[]]; reflexivity. }
  destruct (execute_dag all_ok_nodes true) as [st r] eqn:E.
  destruct (execute_dag_runs_every_task all_ok_nodes true st r H E) as (_ & K & _).
  exact K.
Defined.
